(** * The Vue bindings of the conversational-audio client

    A model of [packages/vue/src]: the location helpers
    ([utils/location.ts]), the [useConversation] composable ([index.ts])
    with its session-acquisition guard, and the [useScribe] composable
    ([scribe.ts]) with the merging of its options
    ([utils/scribeConnection.ts]) and the handlers of the events of its
    connection ([utils/scribeEventHandlers.ts]).

    The composables are asynchronous JavaScript.  Every [async] function
    is cut at its [await]s into synchronous blocks; a block runs to
    completion, and the blocks of different calls interleave through the
    promise reaction lists and the microtask queue, which the model keeps
    explicitly.  The client library ([Conversation.startSession], the
    handle's [endSession], [isOpen], ...) is the environment: its promises
    are settled by environment actions, and every call made to it is
    appended to a log. *)

From stdpp Require Import base option list strings gmap pretty.
From Stdlib Require Import ZArith.

Local Open Scope string_scope.
Local Open Scope list_scope.

(** ** What both composables share *)

Module Js.

(** What a [throw] or a rejected promise carries: an [Error] made by the
    composables ([new Error(message)]), or a reason that comes from the
    client library. *)
Inductive error :=
| Error (message : string)
| ClientError (code : nat).

#[export] Instance error_eq_dec : EqDecision error.
Proof. solve_decision. Defined.

(** How a synchronous function of a composable ends: it returns [a] and
    leaves the state [s], or it throws. *)
Inductive completion (S A : Type) :=
| Returns (a : A) (s : S)
| Throws (e : error).
Arguments Returns {S A} a s.
Arguments Throws {S A} e.

Definition throws {S A : Type} (c : completion S A) : Prop :=
  ∃ e, c = Throws e.

End Js.

(** ** utils/location.ts *)

Module Location.

(** [type Location = "us" | "global" | "eu-residency" | "in-residency"]:
    a string at run time. *)
Definition Location : Type := string.

(** [parseLocation(location: string = "us")]; [None] is the omitted
    (undefined) argument, replaced by the default.  The [console.warn]
    of the default branch is not modelled. *)
Definition parseLocation (location : option string) : Location :=
  let location := default "us" location in
  if (String.eqb location "eu-residency"
      || String.eqb location "in-residency"
      || String.eqb location "us"
      || String.eqb location "global")%bool
  then location
  else "us".

Definition originMap : gmap string string :=
  <["us" := "wss://api.elevenlabs.io"]>
  (<["eu-residency" := "wss://api.eu.residency.elevenlabs.io"]>
  (<["in-residency" := "wss://api.in.residency.elevenlabs.io"]>
  (<["global" := "wss://api.elevenlabs.io"]> ∅))).

(** [originMap[location]]: [None] is JavaScript's [undefined] for a key
    the object does not have.  The table is looked up at its own keys,
    which is all a [Location] can be; at a key that objects inherit
    ("toString", "constructor", ...) JavaScript gives the inherited
    member, which the table of the model does not have. *)
Definition getOriginForLocation (location : Location) : option string :=
  originMap !! location.

Definition livekitUrlMap : gmap string string :=
  <["us" := "wss://livekit.rtc.elevenlabs.io"]>
  (<["eu-residency" := "wss://livekit.rtc.eu.residency.elevenlabs.io"]>
  (<["in-residency" := "wss://livekit.rtc.in.residency.elevenlabs.io"]>
  (<["global" := "wss://livekit.rtc.elevenlabs.io"]> ∅))).

(** [livekitUrlMap[location]], looked up in the same way. *)
Definition getLivekitUrlForLocation (location : Location) : option string :=
  livekitUrlMap !! location.

(** The members of the [Location] type. *)
Definition valid (l : string) : Prop :=
  l = "us" ∨ l = "global" ∨ l = "eu-residency" ∨ l = "in-residency".

End Location.

(** ** index.ts: useConversation *)

Module UseConversation.
Import Js Location.

(** *** Values *)

(** [number]: the volume is only handed on, never computed with. *)
Definition number : Type := Z.

(** A [Conversation] handle of the client library: the object's identity
    and what [getId()] returns. *)
Record Conversation := mkConversation { uid : nat; getId : string }.

#[export] Instance Conversation_eq_dec : EqDecision Conversation.
Proof. solve_decision. Defined.

(** What the async functions of the composable resolve to. *)
Inductive value :=
| VString (s : string)
| VUndefined.

Inductive settled (A : Type) :=
| Fulfilled (a : A)
| Rejected (e : error).
Arguments Fulfilled {A} a.
Arguments Rejected {A} e.

(** [HookOptions], cut down to the fields the control flow of
    [startSession] reads; the callbacks are handed on untouched. *)
Record HookOptions := mkHookOptions {
  serverLocation : option string;
  livekitUrl : option string
}.

#[export] Instance HookOptions_eq_dec : EqDecision HookOptions.
Proof. solve_decision. Defined.

(** The argument of [useConversation]. *)
Record Props := mkProps {
  initialMicMuted : option bool;
  initialVolume : option number;
  propsServerLocation : option string;
  defaultOptions : HookOptions
}.

(** [a || b] on optional strings: [undefined] and the empty string are
    falsy. *)
Definition orElse (a b : option string) : option string :=
  match a with
  | Some x => if String.eqb x "" then b else a
  | None => b
  end.

(** *** Calls made to the client library *)

Inductive call :=
| CStartSession (origin livekitUrl : option string)
| CEndSession (c : Conversation)
| CSetMicMuted (c : Conversation) (muted : bool)
| CSetVolume (c : Conversation) (v : number)
| CSendFeedback (c : Conversation) (like : bool)
| CSendContextualUpdate (c : Conversation) (text : string)
| CSendUserMessage (c : Conversation) (text : string)
| CSendUserActivity (c : Conversation)
| CSendMCPToolApprovalResult (c : Conversation) (toolCallId : string)
    (isApproved : bool).

#[export] Instance call_eq_dec : EqDecision call.
Proof. solve_decision. Defined.

Definition isStartCall (x : call) : bool :=
  match x with
  | CStartSession _ _ => true
  | _ => false
  end.

(** *** Promises, suspended calls, microtasks *)

(** The [await]s of the composable, named by what runs when the awaited
    promise settles. *)
Inductive cont :=
| BeginJoin     (* startSession: const conversation = await lockRef.value *)
| BeginConnect  (* startSession: conversationRef.value = await lockRef.value *)
| BeginCancel   (* startSession: await conversationRef.value.endSession() *)
| EndPending    (* endSession: const conv = await pendingConnection *)
| EndClose      (* endSession: await conv.endSession() / conversation?.endSession() *)
| UnmountThen.  (* onUnmounted: lockRef.value.then(conv => conv.endSession()) *)

(** One call of an async function (or one [then] callback): suspended at
    an [await], or settled with the outcome its caller sees. *)
Inductive task :=
| Suspended (k : cont)
| Settled (r : settled value).

(** A promise: its outcome once settled, and the tasks waiting on it,
    in the order they started to wait. *)
Record promise (A : Type) := mkPromise {
  outcome : option (settled A);
  reactions : list nat
}.
Arguments mkPromise {A} _ _.
Arguments outcome {A} _.
Arguments reactions {A} _.

(** What a suspended task is resumed with. *)
Inductive resumption :=
| RConv (r : settled Conversation)
| RVoid (r : settled unit).

(** *** State

    The refs [micMuted] and [volume] start from the props.  The two
    [watch] callbacks that forward a later change to the handle in the
    slot run under Vue's scheduler and are not part of the model, which
    has no action that writes these refs. *)

Record state := mkState {
  (* the refs of the composable *)
  conversationRef : option Conversation;
  lockRef : option nat;            (* the promise of Conversation.startSession *)
  shouldEndRef : bool;
  micMuted : option bool;
  volume : option number;
  (* the run time and the client library *)
  startPromises : list (promise Conversation);
  closePromises : list (promise unit);
  tasks : list task;
  microtasks : list (nat * resumption);
  calls : list call;
  closedConvs : list Conversation  (* handles whose isOpen() is false *)
}.

Definition init (props : Props) : state :=
  {| conversationRef := None; lockRef := None; shouldEndRef := false;
     micMuted := initialMicMuted props; volume := initialVolume props;
     startPromises := []; closePromises := []; tasks := [];
     microtasks := []; calls := []; closedConvs := [] |}.

Definition set_conversationRef (v : option Conversation) (s : state) : state :=
  {| conversationRef := v; lockRef := lockRef s;
     shouldEndRef := shouldEndRef s; micMuted := micMuted s;
     volume := volume s; startPromises := startPromises s;
     closePromises := closePromises s; tasks := tasks s;
     microtasks := microtasks s; calls := calls s;
     closedConvs := closedConvs s |}.

Definition set_lockRef (v : option nat) (s : state) : state :=
  {| conversationRef := conversationRef s; lockRef := v;
     shouldEndRef := shouldEndRef s; micMuted := micMuted s;
     volume := volume s; startPromises := startPromises s;
     closePromises := closePromises s; tasks := tasks s;
     microtasks := microtasks s; calls := calls s;
     closedConvs := closedConvs s |}.

Definition set_shouldEndRef (v : bool) (s : state) : state :=
  {| conversationRef := conversationRef s; lockRef := lockRef s;
     shouldEndRef := v; micMuted := micMuted s;
     volume := volume s; startPromises := startPromises s;
     closePromises := closePromises s; tasks := tasks s;
     microtasks := microtasks s; calls := calls s;
     closedConvs := closedConvs s |}.

Definition set_startPromises (v : list (promise Conversation)) (s : state)
    : state :=
  {| conversationRef := conversationRef s; lockRef := lockRef s;
     shouldEndRef := shouldEndRef s; micMuted := micMuted s;
     volume := volume s; startPromises := v;
     closePromises := closePromises s; tasks := tasks s;
     microtasks := microtasks s; calls := calls s;
     closedConvs := closedConvs s |}.

Definition set_closePromises (v : list (promise unit)) (s : state) : state :=
  {| conversationRef := conversationRef s; lockRef := lockRef s;
     shouldEndRef := shouldEndRef s; micMuted := micMuted s;
     volume := volume s; startPromises := startPromises s;
     closePromises := v; tasks := tasks s;
     microtasks := microtasks s; calls := calls s;
     closedConvs := closedConvs s |}.

Definition set_tasks (v : list task) (s : state) : state :=
  {| conversationRef := conversationRef s; lockRef := lockRef s;
     shouldEndRef := shouldEndRef s; micMuted := micMuted s;
     volume := volume s; startPromises := startPromises s;
     closePromises := closePromises s; tasks := v;
     microtasks := microtasks s; calls := calls s;
     closedConvs := closedConvs s |}.

Definition set_microtasks (v : list (nat * resumption)) (s : state) : state :=
  {| conversationRef := conversationRef s; lockRef := lockRef s;
     shouldEndRef := shouldEndRef s; micMuted := micMuted s;
     volume := volume s; startPromises := startPromises s;
     closePromises := closePromises s; tasks := tasks s;
     microtasks := v; calls := calls s;
     closedConvs := closedConvs s |}.

Definition set_calls (v : list call) (s : state) : state :=
  {| conversationRef := conversationRef s; lockRef := lockRef s;
     shouldEndRef := shouldEndRef s; micMuted := micMuted s;
     volume := volume s; startPromises := startPromises s;
     closePromises := closePromises s; tasks := tasks s;
     microtasks := microtasks s; calls := v;
     closedConvs := closedConvs s |}.

Definition set_closedConvs (v : list Conversation) (s : state) : state :=
  {| conversationRef := conversationRef s; lockRef := lockRef s;
     shouldEndRef := shouldEndRef s; micMuted := micMuted s;
     volume := volume s; startPromises := startPromises s;
     closePromises := closePromises s; tasks := tasks s;
     microtasks := microtasks s; calls := calls s;
     closedConvs := v |}.

(** *** The run time *)

(** [c.isOpen()], answered by the client library. *)
Definition isOpen (s : state) (c : Conversation) : bool :=
  bool_decide (c ∉ closedConvs s).

Definition log (c : call) (s : state) : state :=
  set_calls (calls s ++ [c]) s.

(** A new call of an async function; its task is the next free index. *)
Definition spawn (k : task) (s : state) : state :=
  set_tasks (tasks s ++ [k]) s.

Definition set_task (t : nat) (k : task) (s : state) : state :=
  set_tasks (<[t := k]> (tasks s)) s.

(** The async function of task [t] returns or throws. *)
Definition settle (t : nat) (r : settled value) (s : state) : state :=
  set_task t (Settled r) s.

Definition enqueue (t : nat) (r : resumption) (s : state) : state :=
  set_microtasks (microtasks s ++ [(t, r)]) s.

(** [await p] for a promise of the start call: a settled promise queues
    the continuation as a microtask, a pending one records the task as a
    reaction. *)
Definition awaitStart (p t : nat) (s : state) : option state :=
  pr ← startPromises s !! p;
  match outcome pr with
  | Some r => Some (enqueue t (RConv r) s)
  | None =>
      Some (set_startPromises
              (<[p := mkPromise None (reactions pr ++ [t])]> (startPromises s)) s)
  end.

Definition awaitClose (q t : nat) (s : state) : option state :=
  pr ← closePromises s !! q;
  match outcome pr with
  | Some r => Some (enqueue t (RVoid r) s)
  | None =>
      Some (set_closePromises
              (<[q := mkPromise None (reactions pr ++ [t])]> (closePromises s)) s)
  end.

(** [c.endSession()]: the call is logged and a fresh pending promise is
    returned. *)
Definition callEndSession (c : Conversation) (s : state) : nat * state :=
  (length (closePromises s),
   set_closePromises (closePromises s ++ [mkPromise None []])
     (log (CEndSession c) s)).

(** [Conversation.startSession(...)]. *)
Definition callStartSession (origin url : option string) (s : state)
    : nat * state :=
  (length (startPromises s),
   set_startPromises (startPromises s ++ [mkPromise None []])
     (log (CStartSession origin url) s)).

(** *** startSession *)

(** The truth value of [conversationRef.value?.isOpen()]. *)
Definition slotIsOpen (s : state) : bool :=
  match conversationRef s with
  | Some c => isOpen s c
  | None => false
  end.

(** [startSession(options)], up to its first [await] (or its return). *)
Definition startSession (props : Props) (options : option HookOptions)
    (s : state) : option state :=
  let t := length (tasks s) in
  if slotIsOpen s then
    c ← conversationRef s;
    Some (spawn (Settled (Fulfilled (VString (getId c)))) s)
  else
    match lockRef s with
    | Some p => awaitStart p t (spawn (Suspended BeginJoin) s)
    | None =>
        let s := set_shouldEndRef false s in
        let resolvedServerLocation :=
          parseLocation
            (orElse (options ≫= serverLocation) (propsServerLocation props)) in
        let origin := getOriginForLocation resolvedServerLocation in
        let calculatedLivekitUrl :=
          getLivekitUrlForLocation resolvedServerLocation in
        let url :=
          orElse (options ≫= livekitUrl)
            (orElse (livekitUrl (defaultOptions props)) calculatedLivekitUrl) in
        let '(p, s) := callStartSession origin url s in
        let s := set_lockRef (Some p) s in
        awaitStart p t (spawn (Suspended BeginConnect) s)
    end.

Definition cancelledMessage : string := "Session cancelled during connection".

(** The controlled fields are applied to a newly installed handle. *)
Definition applyControlled (c : Conversation) (s : state) : state :=
  let s := match micMuted s with
           | Some m => log (CSetMicMuted c m) s
           | None => s
           end in
  match volume s with
  | Some v => log (CSetVolume c v) s
  | None => s
  end.

(** *** endSession *)

(** [endSession()], up to its first [await]. *)
Definition endSession (s : state) : option state :=
  let t := length (tasks s) in
  let s := set_shouldEndRef true s in
  let pendingConnection := lockRef s in
  let conversation := conversationRef s in
  let s := set_conversationRef None s in
  match pendingConnection with
  | Some p => awaitStart p t (spawn (Suspended EndPending) s)
  | None =>
      let s := spawn (Suspended EndClose) s in
      match conversation with
      | Some c => let '(q, s) := callEndSession c s in awaitClose q t s
      | None => Some (enqueue t (RVoid (Fulfilled ())) s)  (* await undefined *)
      end
  end.

(** *** onUnmounted *)

Definition onUnmounted (s : state) : option state :=
  let s := set_shouldEndRef true s in
  match lockRef s with
  | Some p => awaitStart p (length (tasks s)) (spawn (Suspended UnmountThen) s)
  | None =>
      match conversationRef s with
      | Some c => Some (snd (callEndSession c s))
      | None => Some s
      end
  end.

(** *** The code after each await *)

(** Task [t], suspended at [k], goes on with [r]; [None] when [r] is not
    what the awaited promise can settle with. *)
Definition resume (k : cont) (r : resumption) (t : nat) (s : state)
    : option state :=
  match k, r with
  | BeginJoin, RConv (Fulfilled conversation) =>
      Some (settle t (Fulfilled (VString (getId conversation))) s)
  | BeginJoin, RConv (Rejected e) =>
      Some (settle t (Rejected e) s)
  | BeginConnect, RConv (Fulfilled c) =>
      let s := set_conversationRef (Some c) s in
      if shouldEndRef s then
        let '(q, s) := callEndSession c s in
        awaitClose q t (set_task t (Suspended BeginCancel) s)
      else
        let s := applyControlled c s in
        (* return conversationRef.value.getId(), then the finally block *)
        Some (settle t (Fulfilled (VString (getId c))) (set_lockRef None s))
  | BeginConnect, RConv (Rejected e) =>
      (* the await throws; no catch; the finally block *)
      Some (settle t (Rejected e) (set_lockRef None s))
  | BeginCancel, RVoid (Fulfilled _) =>
      let s := set_conversationRef None s in
      let s := set_lockRef None s in
      (* throw new Error(...), then the finally block *)
      Some (settle t (Rejected (Error cancelledMessage)) (set_lockRef None s))
  | BeginCancel, RVoid (Rejected e) =>
      Some (settle t (Rejected e) (set_lockRef None s))
  | EndPending, RConv (Fulfilled conv) =>
      let '(q, s) := callEndSession conv s in
      awaitClose q t (set_task t (Suspended EndClose) s)
  | EndPending, RConv (Rejected e) =>
      Some (settle t (Rejected e) s)
  | EndClose, RVoid (Fulfilled _) =>
      Some (settle t (Fulfilled VUndefined) s)
  | EndClose, RVoid (Rejected e) =>
      Some (settle t (Rejected e) s)
  | UnmountThen, RConv (Fulfilled conv) =>
      (* the promise of then() follows the one endSession() returns *)
      let '(q, s) := callEndSession conv s in
      awaitClose q t (set_task t (Suspended EndClose) s)
  | UnmountThen, RConv (Rejected e) =>
      Some (settle t (Rejected e) s)
  | _, _ => None
  end.

(** *** The environment and the event loop *)

Inductive action :=
| StartSession (options : option HookOptions)  (* a caller: startSession(options) *)
| EndSession                                   (* a caller: endSession() *)
| Unmount                                      (* the component is unmounted *)
| ResolveStart (p : nat) (c : Conversation)    (* a start call succeeds *)
| RejectStart (p : nat) (e : error)            (* a start call fails *)
| ResolveClose (q : nat)                       (* an endSession() of a handle is done *)
| RejectClose (q : nat) (e : error)
| Disconnected (c : Conversation)              (* isOpen() of c turns false *)
| Microtask.                                   (* the first queued microtask runs *)

#[export] Instance action_eq_dec : EqDecision action.
Proof. solve_decision. Defined.

Definition jobs (r : resumption) (ts : list nat) : list (nat * resumption) :=
  (λ t, (t, r)) <$> ts.

(** Settling a pending promise queues its reactions, in order. *)
Definition settleStart (p : nat) (r : settled Conversation) (s : state)
    : option state :=
  pr ← startPromises s !! p;
  match outcome pr with
  | Some _ => None
  | None =>
      Some (set_microtasks (microtasks s ++ jobs (RConv r) (reactions pr))
              (set_startPromises
                 (<[p := mkPromise (Some r) []]> (startPromises s)) s))
  end.

Definition settleClose (q : nat) (r : settled unit) (s : state)
    : option state :=
  pr ← closePromises s !! q;
  match outcome pr with
  | Some _ => None
  | None =>
      Some (set_microtasks (microtasks s ++ jobs (RVoid r) (reactions pr))
              (set_closePromises
                 (<[q := mkPromise (Some r) []]> (closePromises s)) s))
  end.

Definition microtask (s : state) : option state :=
  match microtasks s with
  | [] => None
  | (t, r) :: rest =>
      match tasks s !! t with
      | Some (Suspended k) => resume k r t (set_microtasks rest s)
      | _ => None
      end
  end.

(** One step; [None] when the action is not enabled. *)
Definition step (props : Props) (a : action) (s : state) : option state :=
  match a with
  | StartSession options => startSession props options s
  | EndSession => endSession s
  | Unmount => onUnmounted s
  | ResolveStart p c => settleStart p (Fulfilled c) s
  | RejectStart p e => settleStart p (Rejected e) s
  | ResolveClose q => settleClose q (Fulfilled ()) s
  | RejectClose q e => settleClose q (Rejected e) s
  | Disconnected c => Some (set_closedConvs (c :: closedConvs s) s)
  | Microtask => microtask s
  end.

Fixpoint run (props : Props) (tr : list action) (s : state) : option state :=
  match tr with
  | [] => Some s
  | a :: tr => s' ← step props a s; run props tr s'
  end.

(** The states the composable can be in. *)
Definition reachable (props : Props) (s : state) : Prop :=
  ∃ tr, run props tr (init props) = Some s.

(** What the caller of task [t] has seen so far. *)
Definition result (t : nat) (s : state) : option (settled value) :=
  match tasks s !! t with
  | Some (Settled r) => Some r
  | _ => None
  end.

Definition suspended (t : nat) (k : cont) (s : state) : Prop :=
  tasks s !! t = Some (Suspended k).

(** How often [endSession()] was called on [c]. *)
Definition closeCount (c : Conversation) (s : state) : nat :=
  length (filter (λ x, x = CEndSession c) (calls s)).

(** How often [Conversation.startSession] was called. *)
Definition startCount (s : state) : nat :=
  length (filter (λ x, isStartCall x) (calls s)).

(** *** Predicates over states *)

(** While the lock is set, a handle in the slot is excused: it does
    not report itself open, or a cancelled [startSession] is about to
    remove it. *)
Definition excused (s : state) : Prop :=
  ∀ p c, lockRef s = Some p → conversationRef s = Some c →
    isOpen s c = false ∨ ∃ t, suspended t BeginCancel s.

(** The lock holds a promise that a start call has returned. *)
Definition lockValid (s : state) : Prop :=
  ∀ p, lockRef s = Some p → p < length (startPromises s).

(** A call of [startSession] that made the start call and has not ended. *)
Definition acquiring (l : list task) (t : nat) : Prop :=
  l !! t = Some (Suspended BeginConnect) ∨ l !! t = Some (Suspended BeginCancel).

(** The lock is set while such a call exists, and there is at most one. *)
Definition guarded (s : state) : Prop :=
  (∀ t, acquiring (tasks s) t → is_Some (lockRef s))
  ∧ (∀ t t', acquiring (tasks s) t → acquiring (tasks s) t' → t = t').

(** A [startSession] that was overtaken by [endSession]: it still waits
    for its start call with the flag set, or is closing the handle, or has
    been rejected. *)
Definition overtaken (t : nat) (s : state) : Prop :=
  (suspended t BeginConnect s ∧ shouldEndRef s = true)
  ∨ suspended t BeginCancel s
  ∨ ∃ e, result t s = Some (Rejected e).





(** *** The pass-through operations

    Each is [conversationRef.value?.m(...)]: with no handle the optional
    chain yields [undefined] and nothing is called.  What a handle
    answers to a getter is the library's; it is the argument [lib]. *)

Definition onHandle (f : Conversation → call) (s : state)
    : completion state unit :=
  match conversationRef s with
  | Some c => Returns () (log (f c) s)
  | None => Returns () s
  end.

Definition setVolume (vol : number) : state → completion state unit :=
  onHandle (λ c, CSetVolume c vol).

Definition sendFeedback (like : bool) : state → completion state unit :=
  onHandle (λ c, CSendFeedback c like).

Definition sendContextualUpdate (text : string)
    : state → completion state unit :=
  onHandle (λ c, CSendContextualUpdate c text).

Definition sendUserMessage (text : string) : state → completion state unit :=
  onHandle (λ c, CSendUserMessage c text).

Definition sendUserActivity : state → completion state unit :=
  onHandle CSendUserActivity.

Definition sendMCPToolApprovalResult (toolCallId : string) (isApproved : bool)
    : state → completion state unit :=
  onHandle (λ c, CSendMCPToolApprovalResult c toolCallId isApproved).

(** [getId()]: [None] is [undefined]. *)
Definition getIdOfSlot (s : state) : completion state (option string) :=
  Returns (getId <$> conversationRef s) s.

(** [conversationRef.value?.getInputVolume() ?? 0], and the same for the
    output volume. *)
Definition getVolume (lib : Conversation → number) (s : state)
    : completion state number :=
  Returns (default 0%Z (lib <$> conversationRef s)) s.

(** [getInputByteFrequencyData()] and [getOutputByteFrequencyData()]. *)
Definition getByteFrequencyData (lib : Conversation → list N) (s : state)
    : completion state (option (list N)) :=
  Returns (lib <$> conversationRef s) s.

End UseConversation.

(** ** scribe.ts: the data plane of useScribe *)

Module UseScribe.
Import Js.

Record RealtimeConnection := mkConnection { connectionId : nat }.

Inductive ScribeStatus :=
| disconnected | connecting | connected | transcribing | failed.

Record TranscriptSegment := mkSegment {
  segmentId : string;
  text : string;
  timestamp : Z;
  isFinal : bool
}.

(** The options of [sendAudio]. *)
Record AudioOptions := mkAudioOptions {
  commitNow : option bool;
  sampleRate : option Z;
  previousText : option string
}.

(** Calls made to the connection. *)
Inductive call :=
| CSend (c : RealtimeConnection) (audioBase64 : string)
    (options : option AudioOptions)
| CCommit (c : RealtimeConnection)
| CClose (c : RealtimeConnection).

Record state := mkState {
  connectionRef : option RealtimeConnection;
  status : ScribeStatus;
  partialTranscript : string;
  committedTranscripts : list TranscriptSegment;
  error : option string;
  calls : list call
}.

Definition init : state :=
  {| connectionRef := None; status := disconnected; partialTranscript := "";
     committedTranscripts := []; error := None; calls := [] |}.

Definition log (c : call) (s : state) : state :=
  {| connectionRef := connectionRef s; status := status s;
     partialTranscript := partialTranscript s;
     committedTranscripts := committedTranscripts s; error := error s;
     calls := calls s ++ [c] |}.

Definition notConnected : string := "Not connected to Scribe".

Definition sendAudio (audioBase64 : string) (options : option AudioOptions)
    (s : state) : completion state unit :=
  match connectionRef s with
  | None => Throws (Error notConnected)
  | Some c => Returns () (log (CSend c audioBase64 options) s)
  end.

Definition commit (s : state) : completion state unit :=
  match connectionRef s with
  | None => Throws (Error notConnected)
  | Some c => Returns () (log (CCommit c) s)
  end.

Definition disconnect (s : state) : completion state unit :=
  let s := match connectionRef s with
           | Some c => log (CClose c) s
           | None => s
           end in
  Returns ()
    {| connectionRef := None; status := disconnected;
       partialTranscript := partialTranscript s;
       committedTranscripts := committedTranscripts s; error := error s;
       calls := calls s |}.

Definition clearTranscripts (s : state) : completion state unit :=
  Returns ()
    {| connectionRef := connectionRef s; status := status s;
       partialTranscript := ""; committedTranscripts := [];
       error := error s; calls := calls s |}.

Definition getConnection (s : state)
    : completion state (option RealtimeConnection) :=
  Returns (connectionRef s) s.

End UseScribe.

(** ** Schedules of the session guard

    The interleavings of caller actions, settlements by the client library
    and microtasks that the properties below are stated for.  Promise and
    task indices are those of a fresh composable: the first call gets
    task 0, the first start call promise 0, and so on. *)

Module Schedules.
Import Js UseConversation.

(** [startSession()] and [endSession()] are called back to back, then the
    start call resolves to [c]: what follows is the continuation of
    [startSession], the continuation of [endSession], the two
    [c.endSession()] promises (0: asked for by [startSession], 1: by
    [endSession]) resolving, and the two calls finishing.  The lists
    are the orders in which that can happen. *)
Definition cancelPrefix (options : option HookOptions) (c : Conversation)
    : list action :=
  [StartSession options; EndSession; ResolveStart 0 c].

Definition cancelTails : list (list action) :=
  [ [Microtask; Microtask; ResolveClose 0; ResolveClose 1; Microtask; Microtask];
    [Microtask; Microtask; ResolveClose 1; ResolveClose 0; Microtask; Microtask];
    [Microtask; ResolveClose 0; Microtask; ResolveClose 1; Microtask; Microtask];
    [Microtask; ResolveClose 0; Microtask; Microtask; ResolveClose 1; Microtask];
    [Microtask; Microtask; ResolveClose 0; Microtask; ResolveClose 1; Microtask];
    [Microtask; Microtask; ResolveClose 1; Microtask; ResolveClose 0; Microtask] ].

(** All sequences of [n] actions taken from [alphabet]. *)
Fixpoint words (n : nat) (alphabet : list action) : list (list action) :=
  match n with
  | 0 => [[]]
  | S n => a ← alphabet; w ← words n alphabet; [a :: w]
  end.

Definition cancelDuringConnect (options : option HookOptions)
    (c : Conversation) : list (list action) :=
  (λ tail, cancelPrefix options c ++ tail) <$> cancelTails.

(** The state in which the start call has just resolved and the
    continuation of [startSession] has run: it awaits [c.endSession()]. *)
Definition cancelAwaitingClose (options : option HookOptions)
    (c : Conversation) : list action :=
  cancelPrefix options c ++ [Microtask].

(** Two callers of [startSession] and then [endSession], all before the
    start call resolves. *)
Definition joinedThenCancelled (o1 o2 : option HookOptions)
    (c : Conversation) : list action :=
  [StartSession o1; StartSession o2; EndSession; ResolveStart 0 c;
   Microtask; Microtask; Microtask].

(** [startSession] twice with no [endSession]: the second call comes
    while the start call is pending, after it resolved but before the
    first call went on, or after the handle was installed. *)
Definition beginTwice (o1 o2 : option HookOptions) (c : Conversation)
    : list (list action) :=
  [ [StartSession o1; StartSession o2; ResolveStart 0 c; Microtask; Microtask];
    [StartSession o1; ResolveStart 0 c; StartSession o2; Microtask; Microtask];
    [StartSession o1; ResolveStart 0 c; Microtask; StartSession o2] ].

(** The start call fails. *)
Definition startFails (options : option HookOptions) (e : error)
    : list action :=
  [StartSession options; RejectStart 0 e; Microtask].


Definition firstConversation : Conversation := mkConversation 1 "first-id".
Definition noProps : Props := mkProps None None None (mkHookOptions None None).

(** The state in which the cancelled [startSession()] of the test awaits
    the [endSession()] of its handle. *)
Definition awaitingClose : state :=
  default (init noProps)
    (run noProps (cancelAwaitingClose None firstConversation) (init noProps)).

(** A start call is pending. *)
Definition pendingStart : state :=
  default (init noProps) (run noProps [StartSession None] (init noProps)).



End Schedules.

(** ** More of the session guard: schedules and invariants *)

Module Lifecycle.
Import Js Location UseConversation Schedules.

(** The calls that [startSession] makes on a new handle for the
    controlled fields: [muted] and [vol] are the values of the refs
    [micMuted] and [volume] when the handle is installed. *)
Definition controlledCalls (muted : option bool) (vol : option number)
    (c : Conversation) : list call :=
  match muted with
  | Some m => [CSetMicMuted c m]
  | None => []
  end ++
  match vol with
  | Some v => [CSetVolume c v]
  | None => []
  end.

(** The caller writes the [micMuted] ref that the composable returns:
    [micMuted.value = v].  (The [watch] callback that forwards the new
    value to a handle in the slot runs later, under Vue's scheduler.) *)
Definition writeMicMuted (v : option bool) (s : state) : state :=
  {| conversationRef := conversationRef s; lockRef := lockRef s;
     shouldEndRef := shouldEndRef s; micMuted := v;
     volume := volume s; startPromises := startPromises s;
     closePromises := closePromises s; tasks := tasks s;
     microtasks := microtasks s; calls := calls s;
     closedConvs := closedConvs s |}.

(** A composable without props whose [micMuted] ref was set to [true]. *)
Definition mutedBeforeStart : state := writeMicMuted (Some true) (init noProps).

(** The next microtask resumes task [t] with [r]: the promise that [t]
    awaits has settled with [r], and [t] is the first in the queue. *)
Definition resumed (t : nat) (r : resumption) (s : state) : Prop :=
  ∃ rest, microtasks s = (t, r) :: rest.

(** The cancel-during-connect scenario in which the [endSession()] of
    the handle that the cancelled [startSession()] awaits is rejected. *)
Definition closeRejected (options : option HookOptions) (c : Conversation)
    (e : error) : list action :=
  cancelPrefix options c ++ [Microtask; Microtask; RejectClose 0 e; Microtask].

(** After a pending start was cancelled: the start call resolves, both
    continuations run, and the [endSession()] of the handle that
    [startSession()] awaits is done. *)
Definition closingCancelled : list action :=
  [ResolveStart 0 firstConversation; Microtask; Microtask; ResolveClose 0].

Definition isControlledCall (x : call) : bool :=
  match x with
  | CSetMicMuted _ _ | CSetVolume _ _ => true
  | _ => false
  end.

(** [startSession(options)], and the start call resolves to [c]. *)
Definition installs (options : option HookOptions) (c : Conversation)
    : list action :=
  [StartSession options; ResolveStart 0 c; Microtask].

(** Two calls of [startSession] share a start call that fails; a third
    call starts again and gets [c]. *)
Definition failsThenRetries (o1 o2 o3 : option HookOptions) (e : error)
    (c : Conversation) : list action :=
  [StartSession o1; StartSession o2; RejectStart 0 e; Microtask; Microtask;
   StartSession o3; ResolveStart 1 c; Microtask].

(** [endSession()] during a start call that fails. *)
Definition endsWhileStartFails (options : option HookOptions) (e : error)
    : list action :=
  [StartSession options; EndSession; RejectStart 0 e; Microtask; Microtask].

(** The component is unmounted during a start call that resolves to
    [c]. *)
Definition unmountsDuringConnect (options : option HookOptions)
    (c : Conversation) : list action :=
  [StartSession options; Unmount; ResolveStart 0 c; Microtask; Microtask;
   ResolveClose 0; ResolveClose 1; Microtask; Microtask].

(** The same, but the [endSession()] that [startSession()] awaits is
    rejected with [e]. *)
Definition unmountsCloseFails (options : option HookOptions)
    (c : Conversation) (e : error) : list action :=
  [StartSession options; Unmount; ResolveStart 0 c; Microtask; Microtask;
   RejectClose 0 e; Microtask].

(** A session was installed and its handle closed by itself; a new
    [startSession()] makes a start call, which is rejected with [e]. *)
Definition staleThenFails (o1 o2 : option HookOptions) (c : Conversation)
    (e : error) : list action :=
  installs o1 c ++ [Disconnected c; StartSession o2; RejectStart 1 e].

Definition staleStartFailing : state :=
  default (init noProps)
    (run noProps (staleThenFails None None firstConversation (ClientError 7))
       (init noProps)).

(** A session is installed, [endSession()] is called, and [rest]
    follows. *)
Definition endsInstalled (options : option HookOptions) (c : Conversation)
    (rest : list action) : list action :=
  installs options c ++ EndSession :: rest.

(** What a start call must be given: an origin from the table and a
    LiveKit URL that is not empty. *)
Definition wellAddressed (x : call) : Prop :=
  match x with
  | CStartSession origin url =>
      (∃ l, valid l ∧ origin = getOriginForLocation l ∧ is_Some origin)
      ∧ (∃ u, url = Some u ∧ u ≠ "")
  | _ => True
  end.

(** The state with the first conversation installed. *)
Definition installed : state :=
  default (init noProps)
    (run noProps (installs None firstConversation) (init noProps)).

(** While the lock is set, some call of [startSession] is between taking
    it and releasing it. *)
Definition lockHeld (s : state) : Prop :=
  is_Some (lockRef s) → ∃ t, acquiring (tasks s) t.

(** While the lock is set, a handle in the slot is closed or closing. *)
Definition closing (s : state) : Prop :=
  ∀ c, is_Some (lockRef s) → conversationRef s = Some c →
    isOpen s c = false ∨ CEndSession c ∈ calls s.

End Lifecycle.

(** ** utils/scribeConnection.ts *)

Module ScribeConnection.
Import Js.

(** The values found in the option objects.  A function and an object
    that is only handed on (the microphone settings) are known by their
    identity.  Of a number this code only asks whether it is truthy: the
    numbers are integers here, as in [UseConversation]. *)
Inductive jsval :=
| JUndefined
| JNull
| JBool (b : bool)
| JNum (n : Z)
| JStr (s : string)
| JFun (f : nat)
| JObj (o : nat).

#[export] Instance jsval_eq_dec : EqDecision jsval.
Proof. solve_decision. Defined.

(** An options object: its own properties. *)
Abbreviation object := (gmap string jsval).

(** [o.k]: [undefined] for a property the object does not have. *)
Definition get (o : object) (k : string) : jsval := default JUndefined (o !! k).

Definition truthy (v : jsval) : bool :=
  match v with
  | JUndefined | JNull => false
  | JBool b => b
  | JNum n => negb (Z.eqb n 0)
  | JStr s => negb (String.eqb s "")
  | JFun _ | JObj _ => true
  end.

(** [a || b] *)
Definition jsOr (a b : jsval) : jsval := if truthy a then a else b.

(** [a ?? b] *)
Definition coalesce (a b : jsval) : jsval :=
  match a with
  | JUndefined | JNull => b
  | _ => a
  end.

(** How a function of this file ends. *)
Inductive outcome (A : Type) :=
| Value (a : A)
| Thrown (e : error).
Arguments Value {A} a.
Arguments Thrown {A} e.

(** The callbacks that [mergeScribeOptions] merges one by one. *)
Definition callbackNames : list string :=
  ["onSessionStarted"; "onPartialTranscript"; "onCommittedTranscript";
   "onCommittedTranscriptWithTimestamps"; "onError"; "onAuthError";
   "onQuotaExceededError"; "onCommitThrottledError"; "onTranscriberError";
   "onUnacceptedTermsError"; "onRateLimitedError"; "onInputError";
   "onQueueOverflowError"; "onResourceExhaustedError";
   "onSessionTimeLimitExceededError"; "onChunkSizeExceededError";
   "onInsufficientAudioActivityError"; "onConnect"; "onDisconnect"].

(** The properties that [mergeScribeOptions] sets with [||]. *)
Definition preferTruthy : list string := "token" :: "modelId" :: callbackNames.

(** [mergeScribeOptions(defaultOptions, runtimeOptions = {})]: the object
    literal spreads the defaults, then the runtime options, then sets
    [token], [modelId] and each callback. *)
Definition mergeScribeOptions (defaultOptions runtimeOptions : object)
    : outcome object :=
  let token := jsOr (get runtimeOptions "token") (get defaultOptions "token") in
  let modelId :=
    jsOr (get runtimeOptions "modelId") (get defaultOptions "modelId") in
  if negb (truthy token) then Thrown (Error "Token is required")
  else if negb (truthy modelId) then Thrown (Error "Model ID is required")
  else
    Value
      (foldr
         (λ k o, <[k := jsOr (get runtimeOptions k) (get defaultOptions k)]> o)
         (<["modelId" := modelId]>
            (<["token" := token]> (runtimeOptions ∪ defaultOptions)))
         callbackNames).

(** The connection options copied into [baseConfig]. *)
Definition copied : list string :=
  ["token"; "modelId"; "baseUri"; "commitStrategy"; "vadSilenceThresholdSecs";
   "vadThreshold"; "minSpeechDurationMs"; "minSilenceDurationMs";
   "languageCode"].

Definition noDevice : string :=
  "Either microphone options or (audioFormat + sampleRate) must be provided".

(** [createScribeConnection(options)], up to the call of [Scribe.connect]:
    the result is the object that [Scribe.connect] is called with. *)
Definition shouldIncludeTimestamps (options : object) : jsval :=
  coalesce (get options "includeTimestamps")
    (JBool (truthy (get options "onCommittedTranscriptWithTimestamps"))).

Definition baseConfig (options : object) : object :=
  <["includeTimestamps" := shouldIncludeTimestamps options]>
    (foldr (λ k o, <[k := get options k]> o) ∅ copied).

Definition createScribeConnection (options : object) : outcome object :=
  if truthy (get options "microphone") then
    Value (<["microphone" := get options "microphone"]> (baseConfig options))
  else if (truthy (get options "audioFormat")
           && truthy (get options "sampleRate"))%bool then
    Value (<["sampleRate" := get options "sampleRate"]>
             (<["audioFormat" := get options "audioFormat"]>
                (baseConfig options)))
  else Thrown (Error noDevice).

(** Options of a composable, and runtime options that name two of its
    properties without a value. *)
Definition hookDefaults : object :=
  <["languageCode" := JStr "en"]>
    (<["token" := JStr "t"]>
       (<["modelId" := JStr "m"]>
          (<["onError" := JFun 1]>
             (<["audioFormat" := JStr "pcm_16000"]>
                (<["sampleRate" := JNum 16000]> ∅))))).

Definition wipesLanguage : object :=
  <["languageCode" := JUndefined]> (<["onError" := JUndefined]> ∅).

End ScribeConnection.

(** ** scribe.ts and utils/scribeEventHandlers.ts: the life of a connection

    [connect], the handlers it registers on the connection, and the
    operations of the composable, over one state: the state of
    [UseScribe] with what [connect] and the handlers add to it.  The
    connection is the environment: it delivers events to the handlers
    registered on it, and every call made to it is logged.  A callback of
    the options is recorded when it is called, not run. *)

Module ScribeComposable.
Import Js ScribeConnection UseScribe.

Record WordTimestamp := mkWord {
  wordText : option string;
  wordStart : option Z;
  wordEnd : option Z;
  wordType : option string;
  speaker_id : option string;
  logprob : option Z;
  characters : option (list string)
}.

Record TranscriptSegment := mkSegment {
  id : string;
  text : string;
  timestamp : Z;
  isFinal : bool;
  words : option (list WordTimestamp)
}.

(** The events with a handler of [setupErrorHandler]. *)
Inductive specificError :=
| AUTH_ERROR
| QUOTA_EXCEEDED
| COMMIT_THROTTLED
| TRANSCRIBER_ERROR
| UNACCEPTED_TERMS
| RATE_LIMITED
| INPUT_ERROR
| QUEUE_OVERFLOW
| RESOURCE_EXHAUSTED
| SESSION_TIME_LIMIT_EXCEEDED
| CHUNK_SIZE_EXCEEDED
| INSUFFICIENT_AUDIO_ACTIVITY.

(** The callback that [setupScribeEventHandlers] gives to
    [setupErrorHandler] for each of them. *)
Definition callbackOf (k : specificError) : string :=
  match k with
  | AUTH_ERROR => "onAuthError"
  | QUOTA_EXCEEDED => "onQuotaExceededError"
  | COMMIT_THROTTLED => "onCommitThrottledError"
  | TRANSCRIBER_ERROR => "onTranscriberError"
  | UNACCEPTED_TERMS => "onUnacceptedTermsError"
  | RATE_LIMITED => "onRateLimitedError"
  | INPUT_ERROR => "onInputError"
  | QUEUE_OVERFLOW => "onQueueOverflowError"
  | RESOURCE_EXHAUSTED => "onResourceExhaustedError"
  | SESSION_TIME_LIMIT_EXCEEDED => "onSessionTimeLimitExceededError"
  | CHUNK_SIZE_EXCEEDED => "onChunkSizeExceededError"
  | INSUFFICIENT_AUDIO_ACTIVITY => "onInsufficientAudioActivityError"
  end.

(** An event of the connection, with the fields of its message that the
    handlers read. *)
Inductive event :=
| SESSION_STARTED
| PARTIAL_TRANSCRIPT (text : string)
| COMMITTED_TRANSCRIPT (text : string)
| COMMITTED_TRANSCRIPT_WITH_TIMESTAMPS (text : string)
    (words : option (list WordTimestamp))
| ERROR (error : string)
| SPECIFIC (k : specificError) (error : string)
| OPEN
| CLOSE.

(** What the handler of a committed transcript reads from the run time:
    [Date.now()] and [Math.random()] for the id, [Date.now()] again for
    the timestamp. *)
Record readings := mkReadings {
  idNow : Z;
  idRandom : string;
  timestampNow : Z
}.

(** What a callback is called with. *)
Inductive argument :=
| NoArgument
| TextMessage (text : string)
| TimestampsMessage (text : string) (words : option (list WordTimestamp))
| ErrorMessage (error : string)
| NewError (message : string).

Record invocation := mkInvocation {
  callee : jsval;
  passed : argument
}.

Record state := mkState {
  connectionRef : option RealtimeConnection;
  status : ScribeStatus;
  partialTranscript : string;
  committedTranscripts : list TranscriptSegment;
  error : option string;
  (** the objects given to [Scribe.connect], in order *)
  connectCalls : list object;
  (** how many connections [Scribe.connect] has returned; the next one
      has this number *)
  connections : nat;
  (** calls made to the connections *)
  calls : list call;
  (** callbacks of the options called so far *)
  invoked : list invocation;
  (** [console.warn] *)
  warnings : list string
}.

Definition init : state :=
  {| connectionRef := None; status := disconnected; partialTranscript := "";
     committedTranscripts := []; error := None; connectCalls := [];
     connections := 0; calls := []; invoked := []; warnings := [] |}.

Definition set_connectionRef (c : option RealtimeConnection) (s : state)
    : state :=
  {| connectionRef := c; status := status s;
     partialTranscript := partialTranscript s;
     committedTranscripts := committedTranscripts s; error := error s;
     connectCalls := connectCalls s; connections := connections s;
     calls := calls s; invoked := invoked s; warnings := warnings s |}.

Definition set_status (x : ScribeStatus) (s : state) : state :=
  {| connectionRef := connectionRef s; status := x;
     partialTranscript := partialTranscript s;
     committedTranscripts := committedTranscripts s; error := error s;
     connectCalls := connectCalls s; connections := connections s;
     calls := calls s; invoked := invoked s; warnings := warnings s |}.

Definition set_partialTranscript (x : string) (s : state) : state :=
  {| connectionRef := connectionRef s; status := status s;
     partialTranscript := x;
     committedTranscripts := committedTranscripts s; error := error s;
     connectCalls := connectCalls s; connections := connections s;
     calls := calls s; invoked := invoked s; warnings := warnings s |}.

Definition set_committedTranscripts (x : list TranscriptSegment) (s : state)
    : state :=
  {| connectionRef := connectionRef s; status := status s;
     partialTranscript := partialTranscript s;
     committedTranscripts := x; error := error s;
     connectCalls := connectCalls s; connections := connections s;
     calls := calls s; invoked := invoked s; warnings := warnings s |}.

Definition set_error (x : option string) (s : state) : state :=
  {| connectionRef := connectionRef s; status := status s;
     partialTranscript := partialTranscript s;
     committedTranscripts := committedTranscripts s; error := x;
     connectCalls := connectCalls s; connections := connections s;
     calls := calls s; invoked := invoked s; warnings := warnings s |}.

Definition logConnect (config : object) (s : state) : state :=
  {| connectionRef := connectionRef s; status := status s;
     partialTranscript := partialTranscript s;
     committedTranscripts := committedTranscripts s; error := error s;
     connectCalls := connectCalls s ++ [config];
     connections := connections s;
     calls := calls s; invoked := invoked s; warnings := warnings s |}.

(** [Scribe.connect] returns: the connection is a new one. *)
Definition fresh (s : state) : RealtimeConnection * state :=
  (mkConnection (connections s),
   {| connectionRef := connectionRef s; status := status s;
      partialTranscript := partialTranscript s;
      committedTranscripts := committedTranscripts s; error := error s;
      connectCalls := connectCalls s; connections := S (connections s);
      calls := calls s; invoked := invoked s; warnings := warnings s |}).

Definition log (c : call) (s : state) : state :=
  {| connectionRef := connectionRef s; status := status s;
     partialTranscript := partialTranscript s;
     committedTranscripts := committedTranscripts s; error := error s;
     connectCalls := connectCalls s; connections := connections s;
     calls := calls s ++ [c]; invoked := invoked s;
     warnings := warnings s |}.

Definition warn (message : string) (s : state) : state :=
  {| connectionRef := connectionRef s; status := status s;
     partialTranscript := partialTranscript s;
     committedTranscripts := committedTranscripts s; error := error s;
     connectCalls := connectCalls s; connections := connections s;
     calls := calls s; invoked := invoked s;
     warnings := warnings s ++ [message] |}.

(** [callbacks.name?.(a)], the callbacks being the properties that
    [useScribe] took out of its options. *)
Definition invoke (options : object) (name : string) (a : argument)
    (s : state) : state :=
  match get options name with
  | JUndefined | JNull => s
  | f =>
      {| connectionRef := connectionRef s; status := status s;
         partialTranscript := partialTranscript s;
         committedTranscripts := committedTranscripts s; error := error s;
         connectCalls := connectCalls s; connections := connections s;
         calls := calls s;
         invoked := invoked s ++ [{| callee := f; passed := a |}];
         warnings := warnings s |}
  end.

(** How a function of the composable ends.  A function that throws may
    have changed the state before. *)
Inductive ended (A : Type) :=
| Returned (a : A) (s : state)
| Threw (e : Js.error) (s : state).
Arguments Returned {A} a s.
Arguments Threw {A} e s.

Definition stateOf {A : Type} (r : ended A) : state :=
  match r with
  | Returned _ s => s
  | Threw _ s => s
  end.

(** *** The handlers

    [setupScribeEventHandlers], and the handler of [CLOSE] that [connect]
    adds.  All of them write the refs of the composable; none looks at
    the connection it was registered on. *)

Definition segmentId (t : readings) : string :=
  pretty (idNow t) +:+ "-" +:+ idRandom t.

Definition handle (options : object) (ev : event) (t : readings) (s : state)
    : state :=
  match ev with
  | SESSION_STARTED =>
      invoke options "onSessionStarted" NoArgument (set_status connected s)
  | PARTIAL_TRANSCRIPT text =>
      invoke options "onPartialTranscript" (TextMessage text)
        (set_status transcribing (set_partialTranscript text s))
  | COMMITTED_TRANSCRIPT text =>
      let segment :=
        {| id := segmentId t; text := text; timestamp := timestampNow t;
           isFinal := true; words := None |} in
      invoke options "onCommittedTranscript" (TextMessage text)
        (set_partialTranscript ""
           (set_committedTranscripts (committedTranscripts s ++ [segment]) s))
  | COMMITTED_TRANSCRIPT_WITH_TIMESTAMPS text ws =>
      let segment :=
        {| id := segmentId t; text := text; timestamp := timestampNow t;
           isFinal := true; words := ws |} in
      invoke options "onCommittedTranscriptWithTimestamps"
        (TimestampsMessage text ws)
        (set_partialTranscript ""
           (set_committedTranscripts (committedTranscripts s ++ [segment]) s))
  | ERROR message =>
      invoke options "onError" (NewError message)
        (set_status failed (set_error (Some message) s))
  | SPECIFIC k message =>
      invoke options "onError" (NewError message)
        (invoke options (callbackOf k) (ErrorMessage message)
           (set_status failed (set_error (Some message) s)))
  | OPEN => invoke options "onConnect" NoArgument s
  | CLOSE =>
      invoke options "onDisconnect" NoArgument
        (set_connectionRef None (set_status disconnected s))
  end.

(** *** connect *)

Definition alreadyConnected : string := "Already connected".
Definition failedToConnect : string := "Failed to connect".

(** [err instanceof Error ? err.message : "Failed to connect"] *)
Definition errorMessage (e : Js.error) : string :=
  match e with
  | Error message => message
  | ClientError _ => failedToConnect
  end.

(** The [catch] block of [connect]. *)
Definition caught (e : Js.error) (s : state) : ended unit :=
  Threw e (set_status failed (set_error (Some (errorMessage e)) s)).

(** [connect(runtimeOptions = {})].  [reply] is what [Scribe.connect]
    does when it is called: it throws, or ([None]) it returns a new
    connection.  The function has no [await]: it runs in one go, and its
    promise is fulfilled on [Returned] and rejected on [Threw]. *)
Definition connect (options runtimeOptions : object)
    (reply : option Js.error) (s : state) : ended unit :=
  match connectionRef s with
  | Some _ => Returned () (warn alreadyConnected s)
  | None =>
      let s := set_error None (set_status connecting s) in
      match mergeScribeOptions options runtimeOptions with
      | Thrown e => caught e s
      | Value mergedOptions =>
          match createScribeConnection mergedOptions with
          | Thrown e => caught e s
          | Value config =>
              let s := logConnect config s in
              match reply with
              | Some e => caught e s
              | None =>
                  let '(connection, s) := fresh s in
                  Returned () (set_connectionRef (Some connection) s)
              end
          end
      end
  end.

(** *** The other operations *)

Definition disconnect (s : state) : ended unit :=
  let s := match connectionRef s with
           | Some c => log (CClose c) s
           | None => s
           end in
  Returned () (set_status disconnected (set_connectionRef None s)).

Definition sendAudio (audioBase64 : string) (options : option AudioOptions)
    (s : state) : ended unit :=
  match connectionRef s with
  | None => Threw (Error notConnected) s
  | Some c => Returned () (log (CSend c audioBase64 options) s)
  end.

Definition commit (s : state) : ended unit :=
  match connectionRef s with
  | None => Threw (Error notConnected) s
  | Some c => Returned () (log (CCommit c) s)
  end.

Definition clearTranscripts (s : state) : ended unit :=
  Returned () (set_partialTranscript "" (set_committedTranscripts [] s)).

Definition getConnection (s : state) : ended (option RealtimeConnection) :=
  Returned (connectionRef s) s.

Definition isConnected (s : state) : bool :=
  match status s with
  | connected | transcribing => true
  | _ => false
  end.

Definition isTranscribing (s : state) : bool :=
  match status s with
  | transcribing => true
  | _ => false
  end.

(** The [onUnmounted] hook. *)
Definition onUnmounted (s : state) : state :=
  match connectionRef s with
  | Some c => log (CClose c) s
  | None => s
  end.

(** [useScribe(options)]: the refs, then the watcher of [autoConnect],
    which runs once, at once; its [connect()] is given no options and
    nobody looks at its promise. *)
Definition autoConnect (options : object) : jsval :=
  match get options "autoConnect" with
  | JUndefined => JBool false
  | v => v
  end.

Definition useScribe (options : object) (reply : option Js.error) : state :=
  if truthy (autoConnect options) then stateOf (connect options ∅ reply init)
  else init.

(** *** The composable in use *)

Inductive action :=
| Connect (runtimeOptions : object) (reply : option Js.error)
| Disconnect
| SendAudio (audioBase64 : string) (options : option AudioOptions)
| Commit
| ClearTranscripts
| Emit (c : RealtimeConnection) (ev : event) (t : readings)
| Unmount.

(** An event can come from any connection that [connect] registered its
    handlers on. *)
Definition created (s : state) (c : RealtimeConnection) : Prop :=
  (connectionId c < connections s)%nat.

#[export] Instance created_dec s c : Decision (created s c).
Proof. unfold created. apply _. Defined.

Definition step (options : object) (a : action) (s : state) : option state :=
  match a with
  | Connect runtimeOptions reply =>
      Some (stateOf (connect options runtimeOptions reply s))
  | Disconnect => Some (stateOf (disconnect s))
  | SendAudio audioBase64 o => Some (stateOf (sendAudio audioBase64 o s))
  | Commit => Some (stateOf (commit s))
  | ClearTranscripts => Some (stateOf (clearTranscripts s))
  | Emit c ev t => if decide (created s c) then Some (handle options ev t s)
                   else None
  | Unmount => Some (onUnmounted s)
  end.

Fixpoint run (options : object) (trace : list action) (s : state)
    : option state :=
  match trace with
  | [] => Some s
  | a :: trace => s' ← step options a s; run options trace s'
  end.

Definition reachable (options : object) (s : state) : Prop :=
  ∃ reply trace, run options trace (useScribe options reply) = Some s.

(** The segments that the events of a trace add. *)
Definition segmentOf (a : action) : list TranscriptSegment :=
  match a with
  | Emit _ (COMMITTED_TRANSCRIPT text) t =>
      [{| id := segmentId t; text := text; timestamp := timestampNow t;
          isFinal := true; words := None |}]
  | Emit _ (COMMITTED_TRANSCRIPT_WITH_TIMESTAMPS text ws) t =>
      [{| id := segmentId t; text := text; timestamp := timestampNow t;
          isFinal := true; words := ws |}]
  | _ => []
  end.

Definition isConnect (a : action) : bool :=
  match a with Connect _ _ => true | _ => false end.

Definition isClear (a : action) : bool :=
  match a with ClearTranscripts => true | _ => false end.

Definition isUnmount (a : action) : bool :=
  match a with Unmount => true | _ => false end.

(** What [Scribe.connect] can rely on in the object it is given. *)
Definition wellFormed (config : object) : Prop :=
  truthy (get config "token") = true
  ∧ truthy (get config "modelId") = true
  ∧ (truthy (get config "microphone") = true
     ∨ (truthy (get config "audioFormat") = true
        ∧ truthy (get config "sampleRate") = true))
  ∧ (∃ b, config !! "includeTimestamps" = Some b ∧ b ≠ JUndefined ∧ b ≠ JNull)
  ∧ ∀ k, k ∈ callbackNames → config !! k = None.

(** A callback that was called is a property of the options of
    [useScribe]. *)
Definition ofOptions (options : object) (i : invocation) : Prop :=
  ∃ name, name ∈ callbackNames ∧ callee i = get options name
          ∧ callee i ≠ JUndefined ∧ callee i ≠ JNull.

(** The connections that [close] was called on, in order. *)
Definition closed (s : state) : list RealtimeConnection :=
  omap (λ x, match x with CClose c => Some c | _ => None end) (calls s).

(** A connection that was closed is not held, a connection that is held
    was made by [Scribe.connect], and none was closed twice. *)
Definition tidy (s : state) : Prop :=
  NoDup (closed s)
  ∧ (∀ c, c ∈ closed s → created s c ∧ connectionRef s ≠ Some c)
  ∧ (∀ c, connectionRef s = Some c → created s c).

(** The states reached without unmounting the component. *)
Definition mounted (options : object) (s : state) : Prop :=
  ∃ reply trace,
    Forall (λ a, isUnmount a = false) trace
    ∧ run options trace (useScribe options reply) = Some s.

(** A composable with callbacks, and runtime options with others. *)
Definition withCallbacks : object :=
  <["onError" := JFun 1]> (<["onAuthError" := JFun 2]> hookDefaults).

Definition runtimeCallbacks : object :=
  <["onError" := JFun 7]> (<["onPartialTranscript" := JFun 8]> ∅).

Definition noReadings : readings :=
  {| idNow := 0; idRandom := "0"; timestampNow := 0 |}.

(** A use of the composable: a connection, a transcript, an error, and
    the end. *)
Definition session : list action :=
  [Connect runtimeCallbacks None;
   Emit (mkConnection 0) SESSION_STARTED noReadings;
   Emit (mkConnection 0) (PARTIAL_TRANSCRIPT "he") noReadings;
   Emit (mkConnection 0) (COMMITTED_TRANSCRIPT "hello") noReadings;
   Emit (mkConnection 0) (SPECIFIC AUTH_ERROR "denied") noReadings;
   Disconnect].

(** A composable that holds its first connection, and one that has
    failed. *)
Definition holding : state :=
  set_connectionRef (Some (mkConnection 0)) (fresh init).2.

Definition hasFailed : state := set_error (Some "denied") init.

(** Options that connect at once and have no token. *)
Definition autoConnects : object :=
  <["autoConnect" := JBool true]> (<["modelId" := JStr "m"]> ∅).

End ScribeComposable.

(** * Properties *)

Import Js Location UseConversation Schedules.

(** ** Locations *)

Lemma eqb_chain_valid (l : string) :
  (String.eqb l "eu-residency" || String.eqb l "in-residency"
   || String.eqb l "us" || String.eqb l "global")%bool = true ↔ valid l.
Proof.
  unfold valid. rewrite !orb_true_iff, !String.eqb_eq. tauto.
Qed.

Lemma parseLocation_valid (l : string) :
  valid l → parseLocation (Some l) = l.
Proof.
  intros Hv. unfold parseLocation. simpl.
  apply eqb_chain_valid in Hv. by rewrite Hv.
Qed.

Lemma parseLocation_other (l : string) :
  ¬ valid l → parseLocation (Some l) = "us".
Proof.
  intros Hv. unfold parseLocation. simpl.
  destruct (_ || _)%bool eqn:E; [|done].
  by apply eqb_chain_valid in E.
Qed.

Lemma parseLocation_in_type (o : option string) : valid (parseLocation o).
Proof.
  destruct o as [l|].
  - unfold parseLocation. simpl.
    destruct (_ || _)%bool eqn:E.
    + by apply eqb_chain_valid.
    + unfold valid. auto.
  - unfold valid. auto.
Qed.

Lemma maps_cover_type (l : string) :
  valid l → is_Some (getOriginForLocation l) ∧ is_Some (getLivekitUrlForLocation l).
Proof.
  intros [-> | [-> | [-> | ->]]]; split; vm_compute; eauto.
Qed.

(** C10: [parseLocation] is total and lands in the [Location] type: a
    recognised string is returned unchanged, every other string and the
    omitted argument give ["us"]; so both URL maps have an entry for what
    it returns, and ["global"] and ["us"] have the same URLs. *)
Theorem parseLocation_total_valid :
  (∀ l, valid l → parseLocation (Some l) = l) ∧
  (∀ l, ¬ valid l → parseLocation (Some l) = "us") ∧
  parseLocation None = "us" ∧
  (∀ o, valid (parseLocation o)) ∧
  (∀ o, is_Some (getOriginForLocation (parseLocation o))) ∧
  (∀ o, is_Some (getLivekitUrlForLocation (parseLocation o))) ∧
  getOriginForLocation "global" = getOriginForLocation "us" ∧
  getLivekitUrlForLocation "global" = getLivekitUrlForLocation "us".
Proof.
  split_and!.
  - apply parseLocation_valid.
  - apply parseLocation_other.
  - reflexivity.
  - apply parseLocation_in_type.
  - intros o. exact (proj1 (maps_cover_type _ (parseLocation_in_type o))).
  - intros o. exact (proj2 (maps_cover_type _ (parseLocation_in_type o))).
  - reflexivity.
  - reflexivity.
Qed.

(** ** Running a schedule *)

(** The location lookups are kept folded while a schedule is run. *)
Local Opaque getOriginForLocation getLivekitUrlForLocation parseLocation orElse.

Lemma run_step props a tr s s' r :
  step props a s = Some s' → run props tr s' = r → run props (a :: tr) s = r.
Proof. intros Hs Hr. simpl. by rewrite Hs. Qed.

(** A schedule is run one action at a time, each state written out as a
    record. *)
Ltac exec_step :=
  lazy -[getOriginForLocation getLivekitUrlForLocation parseLocation orElse];
  reflexivity.

Ltac run_schedule :=
  eexists; split;
  [ repeat (eapply run_step; [exec_step|]); reflexivity |].

(** The fields of a state that is written out. *)
Ltac project :=
  lazy -[getOriginForLocation getLivekitUrlForLocation parseLocation orElse
         elem_of filter length not].

Ltac each_schedule :=
  repeat apply Forall_cons_2; try apply Forall_nil_2.

Ltac find_call :=
  repeat first [apply list_elem_of_here | apply list_elem_of_further].

Ltac count_calls :=
  repeat first
    [ rewrite filter_nil
    | rewrite filter_cons_True by done
    | rewrite filter_cons_False by done
    | rewrite filter_cons_True by exact I
    | rewrite filter_cons_False by (simpl; tauto) ];
  try reflexivity.

(** ** Cancelling a pending start *)

(** The scenario of the test, with both [c.endSession()] promises
    resolving: [endSession()] is called while the start call of
    [startSession()] is pending, and the start call resolves to [c].  In
    every order in which the rest can happen, [startSession()] rejects
    with the error "Session cancelled during connection",
    [c.endSession()] was called, the slot and the lock are empty, and the
    caller got no handle: nothing was returned, and [getId()] gives
    [undefined]. *)
Theorem cancel_during_connect_rejects
    (props : Props) (options : option HookOptions) (c : Conversation) :
  Forall (λ tr, ∃ s,
      run props tr (init props) = Some s
      ∧ result 0 s = Some (Rejected (Error "Session cancelled during connection"))
      ∧ CEndSession c ∈ calls s
      ∧ conversationRef s = None
      ∧ lockRef s = None
      ∧ getIdOfSlot s = Returns None s)
    (cancelDuringConnect options c).
Proof.
  unfold cancelDuringConnect, cancelTails, cancelPrefix. simpl fmap.
  each_schedule; run_schedule; split_and!; try reflexivity; project; find_call.
Qed.

(** C2, as the code has it: a second [startSession()] that joined the
    pending start call resolves with the id of the handle that the
    cancelled first call and [endSession()] are closing. *)
Theorem joined_caller_gets_discarded_id
    (props : Props) (o1 o2 : option HookOptions) (c : Conversation) :
  ∃ s, run props (joinedThenCancelled o1 o2 c) (init props) = Some s
       ∧ result 1 s = Some (Fulfilled (VString (getId c)))
       ∧ suspended 0 BeginCancel s
       ∧ shouldEndRef s = true
       ∧ closeCount c s = 2.
Proof.
  unfold joinedThenCancelled. run_schedule. split_and!; try reflexivity.
  unfold closeCount; cbn [calls]. count_calls.
Qed.

(** The orders listed in [cancelTails] are all there are: any other
    sequence of six microtask runs and resolutions of the two
    [endSession()] promises asks for a step that cannot be taken. *)
Lemma cancelTails_exhaustive :
  Forall (λ tail,
      is_Some (run noProps (cancelPrefix None firstConversation ++ tail)
                 (init noProps)) →
      tail ∈ cancelTails)
    (words 6 [Microtask; ResolveClose 0; ResolveClose 1]).
Proof.
  apply Forall_forall. intros tail Hin Hrun.
  apply (bool_decide_unpack _).
  revert Hrun. apply (bool_decide_unpack _). revert tail Hin.
  apply Forall_forall. apply (bool_decide_unpack _). by vm_compute.
Qed.

(** C3 fails: in the scenario of the test, [endSession] of the handle is
    called twice, not once. *)
Lemma close_called_twice_counterexample :
  ∃ s, run noProps
         (cancelPrefix None firstConversation
          ++ [Microtask; Microtask; ResolveClose 0; ResolveClose 1;
              Microtask; Microtask])
         (init noProps) = Some s
       ∧ closeCount firstConversation s ≠ 1.
Proof.
  eexists. split; [vm_compute; reflexivity|]. vm_compute. lia.
Qed.

(** C3, amended: the handle is closed once by the continuation of the
    cancelled [startSession()] and once more by the continuation of
    [endSession()]: one call when the first has run, two in the end,
    whatever the order of the rest. *)
Theorem cancel_during_connect_closes_twice
    (props : Props) (options : option HookOptions) (c : Conversation) :
  (∃ s, run props (cancelAwaitingClose options c) (init props) = Some s
        ∧ suspended 0 BeginCancel s
        ∧ closeCount c s = 1)
  ∧ Forall (λ tr, ∃ s,
      run props tr (init props) = Some s
      ∧ result 1 s = Some (Fulfilled VUndefined)
      ∧ closeCount c s = 2)
    (cancelDuringConnect options c).
Proof.
  split.
  - unfold cancelAwaitingClose, cancelPrefix. run_schedule.
    split; [reflexivity|]. unfold closeCount; cbn [calls]. count_calls.
  - unfold cancelDuringConnect, cancelTails, cancelPrefix. simpl fmap.
    each_schedule; run_schedule; (split; [reflexivity|]);
      unfold closeCount; cbn [calls]; count_calls.
Qed.

(** ** startSession twice *)

(** Two calls of [startSession()] with no [endSession()] between, the
    second call coming while the start call is pending, after it resolved,
    or after the handle was installed (and reports itself open):
    [Conversation.startSession] is called once, and both callers get the
    id of the same handle. *)
Theorem begin_twice_one_start
    (props : Props) (o1 o2 : option HookOptions) (c : Conversation) :
  Forall (λ tr, ∃ s,
      run props tr (init props) = Some s
      ∧ startCount s = 1
      ∧ result 0 s = Some (Fulfilled (VString (getId c)))
      ∧ result 1 s = Some (Fulfilled (VString (getId c)))
      ∧ conversationRef s = Some c
      ∧ lockRef s = None)
    (beginTwice o1 o2 c).
Proof.
  unfold beginTwice. destruct props as [[m|] [v|] sl d].
  all: each_schedule; run_schedule; split_and!; try reflexivity;
    unfold startCount; cbn [calls]; count_calls.
Qed.

(** ** endSession, up to its first await *)

#[local] Set Warnings "-clear-no-such-hyp".

Ltac unfold_ops :=
  unfold step, startSession, endSession, onUnmounted, settleStart, settleClose,
    microtask, resume, awaitStart, awaitClose, callEndSession,
    callStartSession, settle, set_task, spawn, enqueue, log, applyControlled,
    suspended, result in *.

Ltac crunch := repeat (simplify_option_eq; try case_match); simpl in *.

(** C5 fails: after the synchronous part of [endSession()] the lock still
    holds the promise of the pending start call. *)
Lemma end_keeps_lock_counterexample :
  ∃ s, run noProps [StartSession None; EndSession] (init noProps) = Some s
       ∧ conversationRef s = None
       ∧ lockRef s ≠ None.
Proof.
  eexists. split; [vm_compute; reflexivity|]. split; [reflexivity|]. vm_compute. discriminate.
Qed.

Lemma endSession_tasks s s' :
  endSession s = Some s' → ∃ k, tasks s' = tasks s ++ [Suspended k].
Proof. intros H. unfold_ops. crunch; eauto. Qed.

(** What the synchronous part of [endSession()] does to a state. *)
Lemma endSession_effect (s s' : state) :
  endSession s = Some s' →
  shouldEndRef s' = true
  ∧ conversationRef s' = None
  ∧ lockRef s' = lockRef s
  ∧ suspended (length (tasks s))
      (match lockRef s with Some _ => EndPending | None => EndClose end) s'
  ∧ calls s' = calls s ++
      match lockRef s, conversationRef s with
      | None, Some c => [CEndSession c]
      | _, _ => []
      end.
Proof.
  intros H. unfold_ops. crunch.
  all: rewrite ?app_nil_r; split_and!; try done.
  all: by rewrite lookup_app_r, Nat.sub_diag by done.
Qed.

Lemma lockValid_frame s s' :
  lockValid s →
  (is_Some (lockRef s') → lockRef s' = lockRef s) →
  (length (startPromises s) ≤ length (startPromises s'))%nat →
  lockValid s'.
Proof.
  intros Hinv Hl Hlen p Hp. rewrite Hl in Hp by eauto.
  apply Hinv in Hp. lia.
Qed.

Lemma applyControlled_startPromises c s :
  startPromises (applyControlled c s) = startPromises s.
Proof.
  unfold applyControlled.
  destruct (micMuted s), (volume s) eqn:Hv; simpl; rewrite ?Hv; done.
Qed.

Ltac keep_lockValid :=
  match goal with
  | Hinv : lockValid ?s |- lockValid _ =>
      first
        [ apply (lockValid_frame s); [exact Hinv|simpl; by intros [? ?]|];
          simpl; rewrite ?length_insert, ?length_app; simpl; lia
        | intros ? ?; simpl in *; simplify_eq;
          rewrite ?length_insert, ?length_app; simpl; lia ]
  end.

Lemma step_lockValid props a s s' :
  step props a s = Some s' → lockValid s → lockValid s'.
Proof.
  intros Hstep Hinv.
  destruct a; simpl in Hstep.
  - unfold startSession, slotIsOpen in Hstep.
    unfold_ops; crunch; keep_lockValid.
  - unfold_ops; crunch; keep_lockValid.
  - unfold_ops; crunch; keep_lockValid.
  - unfold_ops; crunch; keep_lockValid.
  - unfold_ops; crunch; keep_lockValid.
  - unfold_ops; crunch; keep_lockValid.
  - unfold_ops; crunch; keep_lockValid.
  - simplify_eq. keep_lockValid.
  - unfold microtask in Hstep.
    destruct (microtasks s) as [|[t r] rest]; [done|].
    destruct (tasks s !! t) as [[k|]|] eqn:Ht; try done.
    destruct k, r as [[c|e]|[[]|e]];
      unfold resume, awaitClose, callEndSession, settle, set_task, enqueue,
        log in Hstep; crunch.
    all: try keep_lockValid.
    all: apply (lockValid_frame s); [exact Hinv|simpl; by intros [? ?]|].
    all: simpl; by rewrite applyControlled_startPromises.
Qed.

Lemma reachable_lockValid props s : reachable props s → lockValid s.
Proof.
  intros [tr Hrun]. assert (H0 : lockValid (init props)) by (by intros ? ?).
  revert Hrun H0. generalize (init props) as s0.
  induction tr as [|a tr IH]; intros s0 Hrun H0; simpl in Hrun.
  - by simplify_eq.
  - destruct (step props a s0) as [s1|] eqn:Hstep; [|done].
    apply (IH s1); [done|]. by eapply step_lockValid.
Qed.

Lemma endSession_returns s :
  lockValid s → is_Some (endSession s).
Proof.
  intros Hinv. unfold endSession, awaitStart, awaitClose, callEndSession.
  simpl. destruct (lockRef s) as [p|] eqn:Hl.
  - apply Hinv in Hl. destruct (lookup_lt_is_Some_2 _ _ Hl) as [pr Hpr].
    rewrite Hpr. simpl. destruct (outcome pr); eauto.
  - destruct (conversationRef s); [|eauto]. simpl.
    rewrite lookup_app_r, Nat.sub_diag by done. simpl. eauto.
Qed.

(** C5, amended: in every reachable state [endSession()] runs up to its
    first [await]; that synchronous part sets the cancellation flag, reads
    the lock and the slot, and empties the slot only; the lock is left as
    it was.  It then waits for the pending start call if there was one,
    and otherwise calls [endSession()] on the handle it took from the
    slot. *)
Theorem endSession_prologue (props : Props) (s : state) :
  reachable props s →
  ∃ s', endSession s = Some s'
    ∧ shouldEndRef s' = true
    ∧ conversationRef s' = None
    ∧ lockRef s' = lockRef s
    ∧ suspended (length (tasks s))
        (match lockRef s with Some _ => EndPending | None => EndClose end) s'
    ∧ calls s' = calls s ++
        match lockRef s, conversationRef s with
        | None, Some c => [CEndSession c]
        | _, _ => []
        end.
Proof.
  intros Hr.
  destruct (endSession_returns s (reachable_lockValid props s Hr)) as [s' Hs].
  exists s'. split; [exact Hs|]. by apply endSession_effect.
Qed.

Lemma endSession_prologue_witness :
  reachable noProps pendingStart
  ∧ ∃ s', endSession pendingStart = Some s'
      ∧ shouldEndRef s' = true
      ∧ conversationRef s' = None
      ∧ lockRef s' = Some 0.
Proof.
  assert (Hr : reachable noProps pendingStart).
  { exists [StartSession None]. by vm_compute. }
  split; [exact Hr|].
  destruct (endSession_prologue noProps pendingStart Hr)
    as (s' & Hs & Hflag & Hslot & Hlock & _).
  exists s'. split; [exact Hs|]. split; [exact Hflag|].
  split; [exact Hslot|]. rewrite Hlock. by vm_compute.
Defined.

(** ** The lock and the slot *)

Lemma excused_intro s s' :
  excused s →
  (is_Some (lockRef s') → is_Some (conversationRef s') →
     lockRef s' = lockRef s ∧ conversationRef s' = conversationRef s
     ∧ closedConvs s ⊆ closedConvs s'
     ∧ ∀ t, suspended t BeginCancel s → suspended t BeginCancel s') →
  excused s'.
Proof.
  intros Hinv H p c Hl Hc.
  destruct H as (El & Ec & Hsub & Ht); [by eauto..|].
  rewrite El in Hl. rewrite Ec in Hc.
  destruct (Hinv p c Hl Hc) as [Ho|[t Hs]].
  - left. unfold isOpen in *. rewrite bool_decide_eq_false in *.
    intros Hn. apply Ho. intros Hin. apply Hn. by apply Hsub.
  - right. eauto.
Qed.

Lemma suspended_other t t' k k' x (l : list task) :
  l !! t' = Some (Suspended k') → k' ≠ k →
  l !! t = Some (Suspended k) → <[t' := x]> l !! t = Some (Suspended k).
Proof.
  intros H' Hk H. destruct (decide (t = t')) as [->|Hne].
  - congruence.
  - by rewrite list_lookup_insert_ne.
Qed.

Ltac keep_excused :=
  match goal with
  | Hinv : excused ?s |- excused _ =>
      apply (excused_intro s); [exact Hinv|];
      simpl; intros [? ?] [? ?]; simplify_eq;
      split_and!; try done;
      intros ? ?;
      first [ by apply lookup_app_l_Some
            | by eapply suspended_other ]
  end.

Ltac excused_closed :=
  intros ? ? ? ?; simpl in *; simplify_eq; left; assumption.

Ltac excused_cancelling t :=
  intros ? ? ? ?; simpl in *; right; exists t; unfold suspended; simpl;
  apply list_lookup_insert_eq; by eapply lookup_lt_Some.

Lemma step_excused props a s s' :
  step props a s = Some s' → excused s → excused s'.
Proof.
  intros Hstep Hinv.
  destruct a; simpl in Hstep.
  - unfold startSession, slotIsOpen in Hstep.
    unfold_ops; crunch; first [keep_excused | excused_closed].
  - unfold_ops; crunch; keep_excused.
  - unfold_ops; crunch; keep_excused.
  - unfold_ops; crunch; keep_excused.
  - unfold_ops; crunch; keep_excused.
  - unfold_ops; crunch; keep_excused.
  - unfold_ops; crunch; keep_excused.
  - simplify_eq. apply (excused_intro s); [done|]. simpl. intros _ _.
    split_and!; try done. set_solver.
  - unfold microtask in Hstep. 
    destruct (microtasks s) as [|[t r] rest]; [done|].
    destruct (tasks s !! t) as [[k|]|] eqn:Ht; try done.
    destruct k, r as [[c|e]|[[]|e]]; unfold_ops; crunch.
    all: first [ keep_excused | excused_cancelling t ].
Qed.

Lemma run_excused props tr s s' :
  run props tr s = Some s' → excused s → excused s'.
Proof.
  revert s. induction tr as [|a tr IH]; intros s Hrun Hinv; simpl in Hrun.
  - by simplify_eq.
  - destruct (step props a s) as [s1|] eqn:Hstep; [|done].
    eapply IH; [done|]. by eapply step_excused.
Qed.

(** C6 fails: while the cancelled [startSession()] awaits
    [conversationRef.value.endSession()], the lock is still set and the
    slot holds the handle. *)
Lemma lock_and_slot_counterexample :
  ¬ (∀ props s, reachable props s →
       is_Some (lockRef s) → conversationRef s = None).
Proof.
  intros H.
  destruct (run noProps (cancelAwaitingClose None firstConversation)
              (init noProps)) as [s|] eqn:Hrun; [|by vm_compute in Hrun].
  assert (Hr : reachable noProps s) by (by eexists).
  vm_compute in Hrun. simplify_eq.
  specialize (H _ _ Hr). simpl in H. by specialize (H (mk_is_Some _ _ eq_refl)).
Qed.

(** C6, amended: in every reachable state in which the lock is set, the
    slot is empty, or it holds a handle that does not report itself open
    (one left over from an earlier session), or a cancelled
    [startSession()] is suspended at [await
    conversationRef.value.endSession()], between installing the handle
    and clearing the slot and the lock. *)
Theorem lock_set_slot_excused (props : Props) (s : state) :
  reachable props s →
  is_Some (lockRef s) →
  conversationRef s = None
  ∨ (∃ c, conversationRef s = Some c ∧ isOpen s c = false)
  ∨ (∃ t, suspended t BeginCancel s).
Proof.
  intros [tr Hrun] [p Hl].
  assert (Hinv : excused s).
  { eapply run_excused; [done|]. by intros ? ? ?. }
  destruct (conversationRef s) as [c|] eqn:Hc; [|by left].
  right. destruct (Hinv p c Hl Hc) as [?|?]; eauto.
Qed.

Lemma lock_set_slot_excused_witness :
  reachable noProps awaitingClose
  ∧ is_Some (lockRef awaitingClose)
  ∧ (conversationRef awaitingClose = None
     ∨ (∃ c, conversationRef awaitingClose = Some c
             ∧ isOpen awaitingClose c = false)
     ∨ (∃ t, suspended t BeginCancel awaitingClose)).
Proof.
  assert (Hr : reachable noProps awaitingClose).
  { exists (cancelAwaitingClose None firstConversation). by vm_compute. }
  assert (Hl : is_Some (lockRef awaitingClose)).
  { exists 0. by vm_compute. }
  split_and!; [done..|].
  exact (lock_set_slot_excused noProps awaitingClose Hr Hl).
Defined.

(** ** One acquisition at a time *)

Lemma acquiring_app l x t :
  acquiring (l ++ [x]) t → acquiring l t ∨ t = length l.
Proof.
  unfold acquiring. destruct (decide (t < length l)) as [Hlt|Hge].
  - rewrite lookup_app_l by done. by left.
  - intros [H|H]; apply lookup_lt_Some in H; rewrite length_app in H;
      simpl in H; right; lia.
Qed.

Lemma acquiring_app_other l x t :
  x ≠ Suspended BeginConnect → x ≠ Suspended BeginCancel →
  acquiring (l ++ [x]) t → acquiring l t.
Proof.
  intros H1 H2 H. destruct (acquiring_app _ _ _ H) as [H0 | ->]; [done|].
  unfold acquiring in H. rewrite lookup_app_r, Nat.sub_diag in H by done.
  simpl in H. naive_solver.
Qed.

Lemma acquiring_insert l t0 x t :
  acquiring (<[t0 := x]> l) t →
  (t = t0 ∧ (x = Suspended BeginConnect ∨ x = Suspended BeginCancel))
  ∨ (t ≠ t0 ∧ acquiring l t).
Proof.
  unfold acquiring. destruct (decide (t = t0)) as [->|Hne].
  - intros H. left. split; [done|].
    assert (Hlt : t0 < length l).
    { destruct H as [H|H]; apply lookup_lt_Some in H;
        by rewrite length_insert in H. }
    rewrite list_lookup_insert_eq in H by done. naive_solver.
  - rewrite list_lookup_insert_ne by done. by right.
Qed.

Lemma guarded_frame s s' :
  guarded s →
  (is_Some (lockRef s) → is_Some (lockRef s')) →
  (∀ t, acquiring (tasks s') t → acquiring (tasks s) t) →
  guarded s'.
Proof.
  intros [U1 U2] Hl Ht. split.
  - intros t H. apply Hl, (U1 t), Ht, H.
  - intros t t' H H'. apply U2; by apply Ht.
Qed.

Lemma guarded_acquire s s' x :
  guarded s → lockRef s = None → is_Some (lockRef s') →
  tasks s' = tasks s ++ [x] →
  guarded s'.
Proof.
  intros [U1 U2] Hn Hl Ht. 
  assert (Hnone : ∀ t, acquiring (tasks s') t → t = length (tasks s)).
  { intros t H. rewrite Ht in H. apply acquiring_app in H as [H|H]; [|done].
    apply U1 in H. rewrite Hn in H. by destruct H. }
  split; [done|].
  intros t t' H H'. by rewrite (Hnone t H), (Hnone t' H').
Qed.

Lemma guarded_release s s' t0 x :
  guarded s → acquiring (tasks s) t0 →
  tasks s' = <[t0 := x]> (tasks s) →
  x ≠ Suspended BeginConnect → x ≠ Suspended BeginCancel →
  guarded s'.
Proof.
  intros [U1 U2] H0 Ht Hx1 Hx2.
  assert (Hnone : ∀ t, ¬ acquiring (tasks s') t).
  { intros t H. rewrite Ht in H.
    apply acquiring_insert in H as [[_ [?|?]]|[Hne H]]; [done..|].
    apply Hne. by apply U2. }
  split.
  - intros t H. by apply Hnone in H.
  - intros t t' H. by apply Hnone in H.
Qed.

Lemma acquiring_insert_same l t0 k x t :
  l !! t0 = Some (Suspended k) →
  (x = Suspended BeginConnect ∨ x = Suspended BeginCancel →
   k = BeginConnect ∨ k = BeginCancel) →
  acquiring (<[t0 := x]> l) t → acquiring l t.
Proof.
  intros H0 Hx H. apply acquiring_insert in H as [[-> Hk]|[_ H]]; [|done].
  unfold acquiring. destruct (Hx Hk) as [-> | ->]; auto.
Qed.

Ltac keep_guarded :=
  match goal with
  | Hinv : guarded ?s |- guarded _ =>
      first
        [ apply (guarded_frame s); [exact Hinv|simpl; by eauto|];
          simpl; intros ?;
          first [ done
                | apply acquiring_app_other; by eauto
                | eapply acquiring_insert_same; [eassumption|]; naive_solver ]
        | eapply (guarded_acquire s); [exact Hinv|done|simpl; by eauto|reflexivity]
        | eapply (guarded_release s); [exact Hinv| |reflexivity|done|done];
          unfold acquiring; by eauto ]
  end.

Lemma step_guarded props a s s' :
  step props a s = Some s' → guarded s → guarded s'.
Proof.
  intros Hstep Hinv.
  destruct a; simpl in Hstep.
  - unfold startSession, slotIsOpen in Hstep.
    unfold_ops; crunch. all: try keep_guarded. 
  - unfold_ops; crunch; keep_guarded.
  - unfold_ops; crunch; keep_guarded.
  - unfold_ops; crunch; keep_guarded.
  - unfold_ops; crunch; keep_guarded.
  - unfold_ops; crunch; keep_guarded.
  - unfold_ops; crunch; keep_guarded.
  - simplify_eq. keep_guarded.
  - unfold microtask in Hstep. 
    destruct (microtasks s) as [|[t r] rest]; [done|].
    destruct (tasks s !! t) as [[k|]|] eqn:Ht; try done.
    destruct k, r as [[c|e]|[[]|e]]; unfold_ops; crunch.
    all: try keep_guarded.
Qed.

Lemma run_guarded props tr s s' :
  run props tr s = Some s' → guarded s → guarded s'.
Proof.
  revert s. induction tr as [|a tr IH]; intros s Hrun Hinv; simpl in Hrun.
  - by simplify_eq.
  - destruct (step props a s) as [s1|] eqn:Hstep; [|done].
    eapply IH; [done|]. by eapply step_guarded.
Qed.

Lemma reachable_guarded props s : reachable props s → guarded s.
Proof.
  intros [tr Hrun]. eapply run_guarded; [done|].
  split; intros t; unfold acquiring; simpl; rewrite lookup_nil; naive_solver.
Qed.

Lemma overtaken_frame t s s' :
  overtaken t s →
  tasks s' !! t = tasks s !! t →
  (shouldEndRef s = true → shouldEndRef s' = true) →
  overtaken t s'.
Proof.
  unfold overtaken, suspended, result. intros H Ht Hf. rewrite Ht.
  naive_solver.
Qed.

Lemma overtaken_lt t s : overtaken t s → t < length (tasks s).
Proof.
  unfold overtaken, suspended, result. intros [[H _]|[H|[e H]]].
  - by eapply lookup_lt_Some.
  - by eapply lookup_lt_Some.
  - destruct (tasks s !! t) eqn:E; [|done]. by eapply lookup_lt_Some.
Qed.

Lemma overtaken_not_acquiring t s s' :
  overtaken t s → guarded s → lockRef s = None →
  tasks s' !! t = tasks s !! t →
  overtaken t s'.
Proof.
  unfold overtaken, suspended, result. intros H [U1 _] Hn Ht. rewrite Ht.
  assert (Hacq : ¬ acquiring (tasks s) t).
  { intros Ha. apply U1 in Ha. rewrite Hn in Ha. by destruct Ha. }
  unfold acquiring in Hacq. naive_solver.
Qed.

Ltac keep_overtaken :=
  match goal with
  | H : overtaken ?t ?s |- overtaken ?t _ =>
      pose proof (overtaken_lt t s H);
      first
        [ apply (overtaken_frame t s); [exact H| |simpl; by eauto]; simpl;
          first [ done
                | by rewrite lookup_app_l
                | by rewrite list_lookup_insert_ne by congruence ]
        | apply (overtaken_not_acquiring t s); [exact H|assumption|assumption|];
          simpl; by rewrite lookup_app_l ]
  end.

Lemma step_overtaken props a s s' t :
  guarded s → step props a s = Some s' → overtaken t s → overtaken t s'.
Proof.
  intros Hg Hstep Hinv.
  destruct a; simpl in Hstep.
  - unfold startSession, slotIsOpen in Hstep.
    unfold_ops; crunch. all: try keep_overtaken. 
  - unfold_ops; crunch; keep_overtaken.
  - unfold_ops; crunch; keep_overtaken.
  - unfold_ops; crunch; keep_overtaken.
  - unfold_ops; crunch; keep_overtaken.
  - unfold_ops; crunch; keep_overtaken.
  - unfold_ops; crunch; keep_overtaken.
  - simplify_eq. keep_overtaken.
  - unfold microtask in Hstep. 
    destruct (microtasks s) as [|[t0 r] rest]; [done|].
    destruct (tasks s !! t0) as [[k|]|] eqn:Ht; try done.
    destruct (decide (t0 = t)) as [->|Hne].
    + pose proof (lookup_lt_Some _ _ _ Ht) as Hlt.
      assert (Hk : (k = BeginConnect ∧ shouldEndRef s = true) ∨ k = BeginCancel).
      { unfold overtaken, suspended, result in Hinv. rewrite Ht in Hinv.
        naive_solver. }
      clear Hinv.
      destruct Hk as [[-> Hf] | ->], r as [[c|e]|[[]|e]]; unfold_ops; crunch.
      all: unfold overtaken, suspended, result; simpl.
      all: rewrite list_lookup_insert_eq by done.
      all: naive_solver.
    + destruct k, r as [[c|e]|[[]|e]]; unfold_ops; crunch.
      all: try keep_overtaken.
Qed.

(** X10: Once [endSession()] has run while a [startSession()] awaits its start
    call, that call never resolves with an id, whatever happens next: it
    keeps waiting with the flag set, or it is closing the handle it got,
    or it has been rejected. *)
Theorem cancelled_begin_never_resolves props s1 s2 t tr s :
  reachable props s1 →
  suspended t BeginConnect s1 →
  step props EndSession s1 = Some s2 →
  run props tr s2 = Some s →
  overtaken t s.
Proof.
  intros Hr Ht Hend Hrun.
  assert (Hg2 : guarded s2).
  { eapply step_guarded; [exact Hend|]. by apply (reachable_guarded props). }
  assert (Ho2 : overtaken t s2).
  { simpl in Hend. left. split.
    - destruct (endSession_tasks _ _ Hend) as [k Hk].
      unfold suspended in *. rewrite Hk. apply lookup_app_l_Some, Ht.
    - by apply endSession_effect in Hend as (Hf & _). }
  clear Hr Ht Hend. revert s2 Hg2 Ho2 Hrun.
  induction tr as [|a tr IH]; intros s2 Hg2 Ho2 Hrun; simpl in Hrun.
  - by simplify_eq.
  - destruct (step props a s2) as [s3|] eqn:Hstep; [|done].
    apply (IH s3); [by eapply step_guarded|by eapply step_overtaken|done].
Qed.


(** ** Cancelling a pending start, in general *)

Import Lifecycle.

Lemma endSession_overtakes props s1 s2 t :
  reachable props s1 →
  suspended t BeginConnect s1 →
  step props EndSession s1 = Some s2 →
  guarded s2 ∧ overtaken t s2.
Proof.
  intros Hr Ht Hend. split.
  - eapply step_guarded; [exact Hend|]. by apply (reachable_guarded props).
  - simpl in Hend. left. split.
    + destruct (endSession_tasks _ _ Hend) as [k Hk].
      unfold suspended in *. rewrite Hk. apply lookup_app_l_Some, Ht.
    + by apply endSession_effect in Hend as (Hf & _).
Qed.

Lemma run_overtaken props tr s s' t :
  guarded s → overtaken t s → run props tr s = Some s' →
  guarded s' ∧ overtaken t s'.
Proof.
  revert s. induction tr as [|a tr IH]; intros s Hg Ho Hrun; simpl in Hrun.
  - by simplify_eq.
  - destruct (step props a s) as [s1|] eqn:Hstep; [|done].
    apply (IH s1); [by eapply step_guarded|by eapply step_overtaken|done].
Qed.

Lemma overtaken_known t s :
  overtaken t s → ∃ x, tasks s !! t = Some x.
Proof.
  unfold overtaken, suspended, result.
  intros [[H _] | [H | [e H]]]; eauto.
  destruct (tasks s !! t) as [x|]; [eauto|done].
Qed.

(** Only its own continuation moves a suspended call on. *)
Lemma step_task_kept props a s s' t x :
  tasks s !! t = Some x →
  step props a s = Some s' →
  tasks s' !! t ≠ Some x →
  a = Microtask ∧ ∃ r, resumed t r s.
Proof.
  intros Hx Hstep Hne.
  pose proof (lookup_lt_Some _ _ _ Hx) as Hlt.
  destruct a; simpl in Hstep.
  9:{ split; [done|]. unfold microtask in Hstep.
      destruct (microtasks s) as [|[t0 r] rest] eqn:Hm; [done|].
      destruct (decide (t0 = t)) as [->|Hdiff]; [by exists r, rest|].
      exfalso. apply Hne.
      destruct (tasks s !! t0) as [[k|]|] eqn:Ht; try done.
      destruct k, r as [[c|e]|[[]|e]]; unfold_ops; crunch.
      all: by rewrite list_lookup_insert_ne by done. }
  all: exfalso; apply Hne.
  all: unfold startSession, slotIsOpen in *; unfold_ops; crunch.
  all: first [done | by apply lookup_app_l_Some].
Qed.

(** C1, amended: [endSession()] has run while a [startSession()] awaited
    its own start call.  In whatever state the composable is later on:
    that call has not resolved with a value; nothing but its own
    continuation moves it on; when the start call has resolved to [c]
    and the continuation runs, [c.endSession()] is called, [c] is put in
    the slot and the call waits for that close; when the start call was
    rejected, it rejects with the same reason; when the close it waits
    for is fulfilled, it rejects with the error "Session cancelled during
    connection" and the slot and the lock are empty; and when that close
    is rejected with [e], it rejects with [e], the lock is cleared, and
    the slot is left as it is.  Each of these continuations does run. *)
Theorem cancelled_begin_outcome props s1 s2 t tr s :
  reachable props s1 →
  suspended t BeginConnect s1 →
  step props EndSession s1 = Some s2 →
  run props tr s2 = Some s →
  (∀ v, result t s ≠ Some (Fulfilled v))
  ∧ (∀ a s', step props a s = Some s' → tasks s' !! t ≠ tasks s !! t →
             a = Microtask ∧ ∃ r, resumed t r s)
  ∧ (∀ r, resumed t r s →
       match tasks s !! t, r with
       | Some (Suspended BeginConnect), RConv (Fulfilled c) =>
           ∃ s', step props Microtask s = Some s'
             ∧ calls s' = calls s ++ [CEndSession c]
             ∧ suspended t BeginCancel s'
             ∧ conversationRef s' = Some c
             ∧ lockRef s' = lockRef s
       | Some (Suspended BeginConnect), RConv (Rejected e) =>
           ∃ s', step props Microtask s = Some s'
             ∧ result t s' = Some (Rejected e)
             ∧ conversationRef s' = conversationRef s
             ∧ lockRef s' = None
             ∧ calls s' = calls s
       | Some (Suspended BeginCancel), RVoid (Fulfilled _) =>
           ∃ s', step props Microtask s = Some s'
             ∧ result t s' = Some (Rejected (Error cancelledMessage))
             ∧ conversationRef s' = None
             ∧ lockRef s' = None
             ∧ calls s' = calls s
       | Some (Suspended BeginCancel), RVoid (Rejected e) =>
           ∃ s', step props Microtask s = Some s'
             ∧ result t s' = Some (Rejected e)
             ∧ conversationRef s' = conversationRef s
             ∧ lockRef s' = None
             ∧ calls s' = calls s
       | _, _ => step props Microtask s = None
       end).
Proof.
  intros Hr Ht Hend Hrun.
  destruct (endSession_overtakes _ _ _ _ Hr Ht Hend) as [Hg2 Ho2].
  destruct (run_overtaken _ _ _ _ _ Hg2 Ho2 Hrun) as [Hg Ho].
  destruct (overtaken_known _ _ Ho) as [x Hx].
  split_and!.
  - intros v Hv. unfold overtaken, suspended, result in *.
    rewrite Hx in *. naive_solver.
  - intros a s' Hstep Hne. rewrite Hx in Hne.
    by eapply step_task_kept.
  - intros r [rest Hm].
    pose proof (lookup_lt_Some _ _ _ Hx) as Hlt.
    assert (Hk : (x = Suspended BeginConnect ∧ shouldEndRef s = true)
                 ∨ x = Suspended BeginCancel ∨ ∃ e, x = Settled (Rejected e)).
    { unfold overtaken, suspended, result in Ho. rewrite Hx in Ho.
      destruct Ho as [[? ?] | [? | [e ?]]]; [left|right; left|right; right].
      - split; congruence.
      - congruence.
      - exists e. destruct x; congruence. }
    rewrite Hx.
    assert (Hmt : step props Microtask s
                  = match x with
                    | Suspended k => resume k r t (set_microtasks rest s)
                    | _ => None
                    end).
    { simpl. unfold microtask. by rewrite Hm, Hx. }
    rewrite Hmt. clear Hmt.
    destruct Hk as [[-> Hf] | [-> | [e ->]]].
    + destruct r as [[c|e]|[[]|e]]; simpl; rewrite ?Hf; simpl; try done.
      * unfold awaitClose. simpl.
        rewrite lookup_app_r, Nat.sub_diag by done. simpl.
        eexists. split; [done|]. unfold suspended. simpl.
        by rewrite list_lookup_insert_eq.
      * eexists. split; [done|]. unfold result. simpl.
        by rewrite list_lookup_insert_eq.
    + destruct r as [[c|e]|[[]|e]]; simpl; try done.
      all: eexists; split; [done|]; unfold result; simpl.
      all: by rewrite list_lookup_insert_eq.
    + by destruct r as [[c|e0]|[[]|e0]].
Qed.

Lemma cancelled_begin_outcome_witness :
  reachable noProps pendingStart
  ∧ suspended 0 BeginConnect pendingStart
  ∧ ∃ s2 s s',
      step noProps EndSession pendingStart = Some s2
      ∧ run noProps closingCancelled s2 = Some s
      ∧ resumed 0 (RVoid (Fulfilled ())) s
      ∧ step noProps Microtask s = Some s'
      ∧ result 0 s' = Some (Rejected (Error cancelledMessage))
      ∧ conversationRef s' = None
      ∧ lockRef s' = None.
Proof.
  assert (Hr : reachable noProps pendingStart).
  { exists [StartSession None]. by vm_compute. }
  assert (Ht : suspended 0 BeginConnect pendingStart) by (by vm_compute).
  split; [exact Hr|]. split; [exact Ht|].
  destruct (step noProps EndSession pendingStart) as [s2|] eqn:Hs2;
    [|by vm_compute in Hs2].
  destruct (run noProps closingCancelled s2) as [s|] eqn:Hrun.
  2:{ exfalso. vm_compute in Hs2. injection Hs2 as <-. by vm_compute in Hrun. }
  assert (Hm : resumed 0 (RVoid (Fulfilled ())) s).
  { vm_compute in Hs2. injection Hs2 as <-.
    vm_compute in Hrun. injection Hrun as <-. by exists []. }
  assert (Hk : tasks s !! 0 = Some (Suspended BeginCancel)).
  { vm_compute in Hs2. injection Hs2 as <-.
    vm_compute in Hrun. by injection Hrun as <-. }
  destruct (cancelled_begin_outcome noProps pendingStart s2 0 closingCancelled
              s Hr Ht Hs2 Hrun) as (_ & _ & H).
  specialize (H _ Hm). rewrite Hk in H.
  destruct H as (s' & Hs' & Hres & Hslot & Hlock & _).
  exists s2, s, s'. by split_and!.
Defined.

(** C1 fails when the [endSession()] of the new handle is rejected: the
    cancelled [startSession()] rejects with the reason of that rejection,
    not with the cancellation error, and the handle stays in the slot. *)
Lemma cancel_close_rejected_counterexample :
  ∃ s, run noProps (closeRejected None firstConversation (ClientError 7))
         (init noProps) = Some s
       ∧ result 0 s = Some (Rejected (ClientError 7))
       ∧ result 0 s ≠ Some (Rejected (Error cancelledMessage))
       ∧ conversationRef s = Some firstConversation
       ∧ lockRef s = None.
Proof.
  eexists. split; [vm_compute; reflexivity|]. by split_and!.
Qed.

(** ** startSession is idempotent *)

Lemma startCount_log_start s o u :
  startCount (log (CStartSession o u) s) = S (startCount s).
Proof.
  unfold startCount, log. simpl. rewrite filter_app, length_app.
  rewrite filter_cons_True by done. simpl. lia.
Qed.















(** ** A start call that fails *)

(** C7 fails: the caller of [startSession()] gets the very error the start
    call was rejected with, not an error that wraps it; and a handle that
    an earlier session left in the slot is still there afterwards. *)
Lemma start_failure_unwrapped_counterexample :
  (∃ s, run noProps (startFails None (ClientError 7)) (init noProps) = Some s
        ∧ result 0 s = Some (Rejected (ClientError 7)))
  ∧ (∃ s s', run noProps
               (staleThenFails None None firstConversation (ClientError 7))
               (init noProps) = Some s
        ∧ step noProps Microtask s = Some s'
        ∧ result 1 s' = Some (Rejected (ClientError 7))
        ∧ conversationRef s' = Some firstConversation).
Proof.
  split.
  - eexists. split; [vm_compute; reflexivity|]. reflexivity.
  - eexists _, _. split; [vm_compute; reflexivity|].
    split; [vm_compute; reflexivity|]. by split.
Qed.

(** The [finally] block of [startSession]: whenever a block after the
    first [await] ends the call, returning or throwing, the lock is
    cleared. *)
Lemma startSession_finally k r t s s' :
  k = BeginConnect ∨ k = BeginCancel →
  t < length (tasks s) →
  resume k r t s = Some s' →
  is_Some (result t s') →
  lockRef s' = None.
Proof.
  intros Hk Ht Hres Hx.
  destruct Hk as [-> | ->], r as [[c|e]|[[]|e]]; simpl in Hres; try done.
  all: unfold awaitClose, callEndSession in Hres; crunch; try done.
  all: destruct Hx as [x Hx]; unfold result in Hx; simpl in Hx.
  all: by rewrite list_lookup_insert_eq in Hx.
Qed.

(** A start call that rejects ends [startSession()] with the same error,
    and the slot is not touched. *)
Lemma startSession_start_rejected e t s s' :
  t < length (tasks s) →
  resume BeginConnect (RConv (Rejected e)) t s = Some s' →
  result t s' = Some (Rejected e)
  ∧ conversationRef s' = conversationRef s
  ∧ lockRef s' = None.
Proof.
  intros Ht Hres. simpl in Hres. simplify_eq. unfold result. simpl.
  by rewrite list_lookup_insert_eq.
Qed.

(** From a fresh composable: a start call that fails, one that succeeds
    and one that is cancelled all leave the lock cleared. *)
Lemma start_outcomes_from_fresh
    (props : Props) (options : option HookOptions) (e : error)
    (c : Conversation) :
  (∃ s, run props (startFails options e) (init props) = Some s
        ∧ result 0 s = Some (Rejected e)
        ∧ conversationRef s = None
        ∧ lockRef s = None)
  ∧ (∃ s, run props [StartSession options; ResolveStart 0 c; Microtask]
            (init props) = Some s
          ∧ result 0 s = Some (Fulfilled (VString (getId c)))
          ∧ lockRef s = None)
  ∧ Forall (λ tr, ∃ s,
        run props tr (init props) = Some s
        ∧ result 0 s = Some (Rejected (Error cancelledMessage))
        ∧ lockRef s = None)
      (cancelDuringConnect options c).
Proof.
  split_and!.
  - unfold startFails. run_schedule. done.
  - destruct props as [[m|] [v|] sl d]; run_schedule; done.
  - unfold cancelDuringConnect, cancelTails, cancelPrefix. simpl fmap.
    each_schedule; run_schedule; done.
Qed.

(** C7, amended: in any state, when the start call that a
    [startSession()] awaits is rejected with [e], its continuation runs
    and the call rejects with [e] itself (nothing wraps it), the slot is
    left as it was, nothing is called, and the lock is cleared.  The lock
    is cleared by the [finally] block: whenever a continuation of
    [startSession] after its start call ends the call, by a return (success)
    or a throw (cancellation, failure), the lock is empty afterwards. *)
Theorem start_failure_propagates props t e s :
  suspended t BeginConnect s →
  resumed t (RConv (Rejected e)) s →
  (∃ s', step props Microtask s = Some s'
     ∧ result t s' = Some (Rejected e)
     ∧ conversationRef s' = conversationRef s
     ∧ lockRef s' = None
     ∧ calls s' = calls s)
  ∧ (∀ t0 k r s0 s',
       k = BeginConnect ∨ k = BeginCancel →
       suspended t0 k s0 →
       resumed t0 r s0 →
       step props Microtask s0 = Some s' →
       is_Some (result t0 s') →
       lockRef s' = None).
Proof.
  intros Ht [rest Hm]. split.
  - pose proof (lookup_lt_Some _ _ _ Ht) as Hlt.
    simpl. unfold microtask. rewrite Hm, Ht. simpl.
    eexists. split; [done|]. unfold result. simpl.
    by rewrite list_lookup_insert_eq.
  - intros t0 k r s0 s' Hk Hs [rest0 Hm0] Hstep Hres.
    simpl in Hstep. unfold microtask in Hstep. rewrite Hm0, Hs in Hstep.
    eapply startSession_finally; [exact Hk| |exact Hstep|exact Hres].
    simpl. by eapply lookup_lt_Some.
Qed.

Lemma start_failure_propagates_witness :
  suspended 1 BeginConnect staleStartFailing
  ∧ resumed 1 (RConv (Rejected (ClientError 7))) staleStartFailing
  ∧ conversationRef staleStartFailing = Some firstConversation
  ∧ ∃ s', step noProps Microtask staleStartFailing = Some s'
      ∧ result 1 s' = Some (Rejected (ClientError 7))
      ∧ conversationRef s' = Some firstConversation
      ∧ lockRef s' = None.
Proof.
  assert (Ht : suspended 1 BeginConnect staleStartFailing) by (by vm_compute).
  assert (Hm : resumed 1 (RConv (Rejected (ClientError 7))) staleStartFailing).
  { exists []. by vm_compute. }
  assert (Hc : conversationRef staleStartFailing = Some firstConversation)
    by (by vm_compute).
  split; [exact Ht|]. split; [exact Hm|]. split; [exact Hc|].
  destruct (start_failure_propagates noProps 1 (ClientError 7)
              staleStartFailing Ht Hm) as [(s' & Hs & Hres & Hslot & Hl & _) _].
  exists s'. split; [exact Hs|]. split; [exact Hres|].
  split; [by rewrite Hslot|exact Hl].
Defined.

(** ** A new session after a cancelled one *)


(** ** Operations with no handle *)

(** C9 fails: with no handle, [sendUserMessage] returns without an error
    and without doing anything. *)
Lemma send_without_handle_counterexample :
  sendUserMessage "hello" (init noProps) = Returns () (init noProps)
  ∧ ¬ throws (sendUserMessage "hello" (init noProps)).
Proof.
  split; [reflexivity|]. by intros [e He].
Qed.

(** C9, amended: with no connection, the [sendAudio] and [commit] of
    [useScribe] throw the error "Not connected to Scribe"; with no handle,
    the send operations (and [setVolume]) of [useConversation] return
    without an error and call nothing; the getters of both return
    [undefined], [null] or 0 without an error. *)
Theorem operations_without_handle
    (s : UseConversation.state) (u : UseScribe.state)
    (audio text toolCallId : string) (options : option UseScribe.AudioOptions)
    (like isApproved : bool) (vol : number)
    (volumeOf : Conversation → number) (dataOf : Conversation → list N) :
  conversationRef s = None →
  UseScribe.connectionRef u = None →
  UseScribe.sendAudio audio options u = Throws (Error "Not connected to Scribe")
  ∧ UseScribe.commit u = Throws (Error "Not connected to Scribe")
  ∧ UseScribe.getConnection u = Returns None u
  ∧ sendUserMessage text s = Returns () s
  ∧ sendContextualUpdate text s = Returns () s
  ∧ sendUserActivity s = Returns () s
  ∧ sendMCPToolApprovalResult toolCallId isApproved s = Returns () s
  ∧ sendFeedback like s = Returns () s
  ∧ setVolume vol s = Returns () s
  ∧ getIdOfSlot s = Returns None s
  ∧ getVolume volumeOf s = Returns 0%Z s
  ∧ getByteFrequencyData dataOf s = Returns None s.
Proof.
  intros Hs Hu.
  unfold UseScribe.sendAudio, UseScribe.commit, UseScribe.getConnection,
    sendUserMessage, sendContextualUpdate, sendUserActivity,
    sendMCPToolApprovalResult, sendFeedback, setVolume, onHandle,
    getIdOfSlot, getVolume, getByteFrequencyData.
  rewrite Hs, Hu. done.
Qed.

Lemma operations_without_handle_witness :
  conversationRef (init noProps) = None
  ∧ UseScribe.connectionRef UseScribe.init = None
  ∧ UseScribe.sendAudio "AAAA" None UseScribe.init
      = Throws (Error "Not connected to Scribe")
  ∧ sendUserMessage "hello" (init noProps) = Returns () (init noProps).
Proof.
  split; [reflexivity|]. split; [reflexivity|].
  pose proof (operations_without_handle (init noProps) UseScribe.init
                "AAAA" "hello" "tool" None true true 1%Z
                (λ _, 0%Z) (λ _, []) eq_refl eq_refl) as H.
  split; [apply H|]. apply H.
Defined.

(** * More properties of the composables *)

(** ** The session guard *)

Lemma lockHeld_frame s s' :
  lockHeld s →
  (is_Some (lockRef s') → is_Some (lockRef s)) →
  (∀ t, acquiring (tasks s) t → acquiring (tasks s') t) →
  lockHeld s'.
Proof. intros Hinv Hl Ht Hs. destruct (Hinv (Hl Hs)) as [t H]. eauto. Qed.

Lemma acquiring_app_l l x t : acquiring l t → acquiring (l ++ [x]) t.
Proof. unfold acquiring. intros [H|H]; [left|right]; by apply lookup_app_l_Some. Qed.

Lemma acquiring_insert_other l t0 k x t :
  l !! t0 = Some (Suspended k) → k ≠ BeginConnect → k ≠ BeginCancel →
  acquiring l t → acquiring (<[t0 := x]> l) t.
Proof.
  unfold acquiring. intros H0 H1 H2 H.
  destruct (decide (t = t0)) as [->|Hne]; [naive_solver|].
  by rewrite list_lookup_insert_ne.
Qed.

Lemma acquiring_insert_cancel l t0 t :
  l !! t0 = Some (Suspended BeginConnect) →
  acquiring l t → acquiring (<[t0 := Suspended BeginCancel]> l) t.
Proof.
  unfold acquiring. intros H0 H.
  destruct (decide (t = t0)) as [->|Hne].
  - right. apply list_lookup_insert_eq. by eapply lookup_lt_Some.
  - by rewrite list_lookup_insert_ne.
Qed.

Ltac keep_lockHeld :=
  match goal with
  | Hinv : lockHeld ?s |- lockHeld _ =>
      first
        [ by intros [? ?]
        | apply (lockHeld_frame s); [exact Hinv|simpl; by eauto|];
          simpl; intros ?;
          first [ done
                | by apply acquiring_app_l
                | eapply acquiring_insert_other; [eassumption|done|done]
                | by eapply acquiring_insert_cancel ]
        | intros _; simpl; eexists; right;
          rewrite lookup_app_r, Nat.sub_diag by done; reflexivity
        | intros _; simpl; eexists; left;
          rewrite lookup_app_r, Nat.sub_diag by done; reflexivity ]
  end.

Lemma step_lockHeld props a s s' :
  step props a s = Some s' → lockHeld s → lockHeld s'.
Proof.
  intros Hstep Hinv.
  destruct a; simpl in Hstep.
  - unfold startSession, slotIsOpen in Hstep.
    unfold_ops; crunch; keep_lockHeld.
  - unfold_ops; crunch; keep_lockHeld.
  - unfold_ops; crunch; keep_lockHeld.
  - unfold_ops; crunch; keep_lockHeld.
  - unfold_ops; crunch; keep_lockHeld.
  - unfold_ops; crunch; keep_lockHeld.
  - unfold_ops; crunch; keep_lockHeld.
  - simplify_eq. keep_lockHeld.
  - unfold microtask in Hstep.
    destruct (microtasks s) as [|[t r] rest]; [done|].
    destruct (tasks s !! t) as [[k|]|] eqn:Ht; try done.
    destruct k, r as [[c|e]|[[]|e]]; unfold_ops; crunch.
    all: keep_lockHeld.
Qed.


Lemma run_app props tr1 tr2 s :
  run props (tr1 ++ tr2) s = run props tr1 s ≫= run props tr2.
Proof.
  revert s. induction tr1 as [|a tr1 IH]; intros s; simpl; [done|].
  destruct (step props a s); simpl; [apply IH|done].
Qed.

Lemma reachable_step props a s s' :
  reachable props s → step props a s = Some s' → reachable props s'.
Proof.
  intros [tr Hrun] Hstep. exists (tr ++ [a]).
  rewrite run_app, Hrun. simpl. by rewrite Hstep.
Qed.

Lemma reachable_run props tr s s' :
  reachable props s → run props tr s = Some s' → reachable props s'.
Proof.
  intros [tr0 Hrun0] Hrun. exists (tr0 ++ tr). rewrite run_app, Hrun0. done.
Qed.

(** Induction over the reachable states. *)
Lemma reachable_invariant props (P : state → Prop) :
  P (init props) →
  (∀ a s s', reachable props s → step props a s = Some s' → P s → P s') →
  ∀ s, reachable props s → P s.
Proof.
  intros H0 Hstep s [tr Hrun]. revert s Hrun.
  induction tr as [|a tr IH] using rev_ind; intros s Hrun.
  - simpl in Hrun. by simplify_eq.
  - rewrite run_app in Hrun.
    destruct (run props tr (init props)) as [s1|] eqn:Hrun1; [|done].
    simpl in Hrun. destruct (step props a s1) as [s2|] eqn:Hs; [|done].
    simpl in Hrun. simplify_eq.
    eapply Hstep; [by exists tr|exact Hs|by apply IH].
Qed.

Lemma reachable_lockHeld props s : reachable props s → lockHeld s.
Proof.
  apply reachable_invariant.
  - by intros [? ?].
  - intros a s1 s2 _ Hs H. by eapply step_lockHeld.
Qed.

Lemma closing_frame s s' :
  closing s →
  (is_Some (lockRef s') → is_Some (conversationRef s') →
     is_Some (lockRef s) ∧ conversationRef s' = conversationRef s
     ∧ closedConvs s ⊆ closedConvs s'
     ∧ calls s ⊆ calls s') →
  closing s'.
Proof.
  intros Hinv H c Hl Hc.
  destruct H as (El & Ec & Hsub & Hcalls); [by eauto..|].
  rewrite Ec in Hc.
  destruct (Hinv c El Hc) as [Ho|Hin].
  - left. unfold isOpen in *. rewrite bool_decide_eq_false in *.
    intros Hn. apply Ho. intros Hin. apply Hn. by apply Hsub.
  - right. by apply Hcalls.
Qed.

Ltac keep_closing :=
  match goal with
  | Hinv : closing ?s |- closing _ =>
      first
        [ apply (closing_frame s); [exact Hinv|];
          simpl; intros [? ?] [? ?]; simplify_eq;
          split_and!; first [ done | by eauto | set_solver ]
        | intros ? [? ?] ?; simpl in *; simplify_eq; left; assumption
        | intros ? [? ?] ?; simpl in *; simplify_eq; right; set_solver ]
  end.

Lemma step_closing props a s s' :
  step props a s = Some s' → closing s → closing s'.
Proof.
  intros Hstep Hinv.
  destruct a; simpl in Hstep.
  - unfold startSession, slotIsOpen in Hstep.
    unfold_ops; crunch; keep_closing.
  - unfold_ops; crunch; keep_closing.
  - unfold_ops; crunch; keep_closing.
  - unfold_ops; crunch; keep_closing.
  - unfold_ops; crunch; keep_closing.
  - unfold_ops; crunch; keep_closing.
  - unfold_ops; crunch; keep_closing.
  - simplify_eq. keep_closing.
  - unfold microtask in Hstep.
    destruct (microtasks s) as [|[t r] rest]; [done|].
    destruct (tasks s !! t) as [[k|]|] eqn:Ht; try done.
    destruct k, r as [[c|e]|[[]|e]]; unfold_ops; crunch.
    all: keep_closing.
Qed.


Lemma reachable_closing props s : reachable props s → closing s.
Proof.
  apply reachable_invariant.
  - by intros ? [? ?].
  - intros a s1 s2 _ Hs H. by eapply step_closing.
Qed.

(** X9: No step takes an open handle out of the slot without the
    handle's [endSession] having been called: the composable never loses
    track of a session that is still running. *)
Theorem open_handle_never_dropped props a s s' c :
  reachable props s →
  step props a s = Some s' →
  conversationRef s = Some c →
  conversationRef s' ≠ Some c →
  isOpen s c = false ∨ CEndSession c ∈ calls s'.
Proof.
  intros Hr Hstep Hc Hne.
  pose proof (reachable_closing _ _ Hr c) as Hcl.
  pose proof (reachable_guarded _ _ Hr) as [U1 _].
  assert (Hlocked : is_Some (lockRef s) → calls s ⊆ calls s' →
            isOpen s c = false ∨ CEndSession c ∈ calls s').
  { intros Hl Hsub. destruct (Hcl Hl Hc) as [?|?]; [by left|right; by apply Hsub]. }
  destruct a; simpl in Hstep.
  - unfold startSession, slotIsOpen in Hstep. unfold_ops; crunch; done.
  - destruct (endSession_effect _ _ Hstep) as (_ & _ & _ & _ & Hcalls).
    rewrite Hc in Hcalls. destruct (lockRef s) as [p|] eqn:Hl.
    + apply Hlocked; [by eauto|]. rewrite Hcalls. set_solver.
    + right. rewrite Hcalls. set_solver.
  - unfold_ops; crunch; done.
  - unfold_ops; crunch; done.
  - unfold_ops; crunch; done.
  - unfold_ops; crunch; done.
  - unfold_ops; crunch; done.
  - by simplify_eq.
  - unfold microtask in Hstep.
    destruct (microtasks s) as [|[t r] rest]; [done|].
    destruct (tasks s !! t) as [[k|]|] eqn:Ht; try done.
    assert (Hacq : k = BeginConnect ∨ k = BeginCancel → is_Some (lockRef s)).
    { intros Hk. apply (U1 t). unfold acquiring. naive_solver. }
    destruct k, r as [[c'|e]|[[]|e]]; unfold_ops; crunch; try done.
    all: apply Hlocked; [by auto|]; simpl.
    all: try (unfold applyControlled; simpl; repeat case_match; simpl).
    all: set_solver.
Qed.



Lemma install_continuation props t c s :
  suspended t BeginConnect s →
  resumed t (RConv (Fulfilled c)) s →
  ∃ s', step props Microtask s = Some s'
    ∧ conversationRef s' = Some c
    ∧ micMuted s' = micMuted s
    ∧ volume s' = volume s
    ∧ if shouldEndRef s
      then calls s' = calls s ++ [CEndSession c]
           ∧ suspended t BeginCancel s'
      else calls s' = calls s ++ controlledCalls (micMuted s) (volume s) c
           ∧ result t s' = Some (Fulfilled (VString (getId c)))
           ∧ lockRef s' = None.
Proof.
  intros Ht [rest Hm].
  pose proof (lookup_lt_Some _ _ _ Ht) as Hlt.
  simpl. unfold microtask. rewrite Hm, Ht. simpl.
  destruct (shouldEndRef s) eqn:Hf; simpl.
  - unfold awaitClose. simpl.
    rewrite lookup_app_r, Nat.sub_diag by done. simpl.
    eexists. split; [done|]. unfold suspended. simpl.
    by rewrite list_lookup_insert_eq.
  - unfold applyControlled, controlledCalls, result. simpl.
    destruct (micMuted s) as [m|] eqn:Hmu; simpl; rewrite ?Hmu; simpl.
    all: destruct (volume s) as [v|] eqn:Hv; simpl; rewrite ?Hmu, ?Hv; simpl.
    all: eexists; (split; [reflexivity|]); simpl; rewrite ?Hmu, ?Hv.
    all: rewrite list_lookup_insert_eq by done.
    all: by rewrite <-?app_assoc, ?app_nil_r.
Qed.

Lemma startSession_idle props options s :
  lockRef s = None →
  slotIsOpen s = false →
  ∃ s' o u,
    step props (StartSession options) s = Some s'
    ∧ calls s' = calls s ++ [CStartSession o u]
    ∧ tasks s' = tasks s ++ [Suspended BeginConnect]
    ∧ microtasks s' = microtasks s
    ∧ micMuted s' = micMuted s
    ∧ volume s' = volume s
    ∧ shouldEndRef s' = false
    ∧ startPromises s'
      = startPromises s ++ [mkPromise None [length (tasks s)]].
Proof.
  intros Hl Ho. simpl. unfold startSession. rewrite Ho, Hl. simpl.
  unfold awaitStart. simpl.
  rewrite lookup_app_r, Nat.sub_diag by done. simpl.
  eexists _, _, _. split; [done|]. simpl. split_and!; try done.
  rewrite insert_app_r_alt, Nat.sub_diag by done. done.
Qed.

(** X2: The continuation that installs the handle [c] of a start call
    applies the values that the refs [micMuted] and [volume] have at that
    moment: with the cancel flag clear it calls [setMicMuted] and then
    [setVolume] on [c], each only if the value is not [undefined], calls
    nothing else and returns the id; with the flag set it calls only
    [c.endSession()].  So a [startSession()] from an idle composable,
    whose start call resolves to [c], makes the start call and then these
    calls.  And when the session is cancelled during the connection, in
    whatever order the rest happens, neither is ever called. *)
Theorem controlled_fields_applied_on_install
    (props : Props) (c : Conversation) :
  (∀ t s,
     suspended t BeginConnect s →
     resumed t (RConv (Fulfilled c)) s →
     ∃ s', step props Microtask s = Some s'
       ∧ conversationRef s' = Some c
       ∧ if shouldEndRef s
         then calls s' = calls s ++ [CEndSession c]
              ∧ suspended t BeginCancel s'
         else calls s' = calls s ++ controlledCalls (micMuted s) (volume s) c
              ∧ result t s' = Some (Fulfilled (VString (getId c)))
              ∧ lockRef s' = None)
  ∧ (∀ options s,
       lockRef s = None →
       slotIsOpen s = false →
       microtasks s = [] →
       ∃ s' o u,
         run props
           [StartSession options; ResolveStart (length (startPromises s)) c;
            Microtask] s = Some s'
         ∧ calls s'
           = calls s ++ CStartSession o u
               :: controlledCalls (micMuted s) (volume s) c
         ∧ result (length (tasks s)) s'
           = Some (Fulfilled (VString (getId c)))
         ∧ conversationRef s' = Some c)
  ∧ (∀ options,
       Forall (λ tr, ∃ s,
           run props tr (init props) = Some s
           ∧ filter (λ x, isControlledCall x) (calls s) = [])
         (cancelDuringConnect options c)).
Proof.
  split_and!.
  - intros t s Ht Hm.
    destruct (install_continuation props t c s Ht Hm)
      as (s' & Hs & Hc & _ & _ & H).
    exists s'. split; [exact Hs|]. split; [exact Hc|exact H].
  - intros options s Hl Ho Hq.
    destruct (startSession_idle props options s Hl Ho)
      as (s1 & o & u & Hs1 & Hcalls & Htasks & Hmicro & Hmu & Hv & Hf & Hp).
    assert (Hs2 : ∃ s2, step props (ResolveStart (length (startPromises s)) c) s1
                        = Some s2
                    ∧ calls s2 = calls s1 ∧ tasks s2 = tasks s1
                    ∧ micMuted s2 = micMuted s1 ∧ volume s2 = volume s1
                    ∧ shouldEndRef s2 = shouldEndRef s1
                    ∧ microtasks s2
                      = [(length (tasks s), RConv (Fulfilled c))]).
    { simpl. unfold settleStart. rewrite Hp.
      rewrite lookup_app_r, Nat.sub_diag by done. simpl.
      eexists. split; [done|]. simpl. by rewrite Hmicro, Hq. }
    destruct Hs2 as (s2 & Hs2 & Hcalls2 & Htasks2 & Hmu2 & Hv2 & Hf2 & Hmicro2).
    destruct (install_continuation props (length (tasks s)) c s2)
      as (s3 & Hs3 & Hc3 & _ & _ & H3).
    { unfold suspended. rewrite Htasks2, Htasks.
      by rewrite lookup_app_r, Nat.sub_diag. }
    { by eexists. }
    rewrite Hf2, Hf in H3. destruct H3 as (Hcalls3 & Hres3 & _).
    exists s3, o, u. split.
    { eapply run_step; [exact Hs1|]. eapply run_step; [exact Hs2|].
      eapply run_step; [exact Hs3|]. reflexivity. }
    split; [|done].
    rewrite Hcalls3, Hcalls2, Hcalls, Hmu2, Hmu, Hv2, Hv, <-app_assoc. done.
  - intros options.
    unfold cancelDuringConnect, cancelTails, cancelPrefix. simpl fmap.
    repeat apply Forall_cons_2; try apply Forall_nil_2.
    all: run_schedule; cbn [calls]; count_calls.
Qed.

Lemma controlled_fields_applied_on_install_witness :
  lockRef mutedBeforeStart = None
  ∧ micMuted mutedBeforeStart = Some true
  ∧ ∃ s' o u,
      run noProps
        [StartSession None; ResolveStart 0 firstConversation; Microtask]
        mutedBeforeStart = Some s'
      ∧ calls s' = [CStartSession o u; CSetMicMuted firstConversation true].
Proof.
  split; [reflexivity|]. split; [reflexivity|].
  destruct (proj1 (proj2 (controlled_fields_applied_on_install noProps
                            firstConversation))
              None mutedBeforeStart eq_refl eq_refl eq_refl)
    as (s' & o & u & Hrun & Hcalls & _).
  exists s', o, u. split; [exact Hrun|exact Hcalls].
Defined.

(** X3: Two calls of [startSession] share one start call; when it
    is rejected with [e], both reject with [e], and the lock is free
    again: a third call makes a second start call and gets the id of the
    conversation it resolves to. *)
Theorem start_failure_reaches_joiners_then_retry
    (props : Props) (o1 o2 o3 : option HookOptions) (e : error)
    (c : Conversation) :
  ∃ s, run props (failsThenRetries o1 o2 o3 e c) (init props) = Some s
    ∧ result 0 s = Some (Rejected e)
    ∧ result 1 s = Some (Rejected e)
    ∧ result 2 s = Some (Fulfilled (VString (getId c)))
    ∧ startCount s = 2
    ∧ conversationRef s = Some c
    ∧ lockRef s = None.
Proof.
  unfold failsThenRetries. destruct props as [[m|] [v|] sl d].
  all: run_schedule; split_and!; try reflexivity.
  all: unfold startCount; cbn [calls]; count_calls.
Qed.

(** X5: [endSession()] called during a start call that is then
    rejected with [e] rejects with [e] as well, as [startSession()] does;
    nothing is closed, and the slot and the lock are empty. *)
Theorem endSession_rejects_when_start_fails
    (props : Props) (options : option HookOptions) (e : error) :
  ∃ s, run props (endsWhileStartFails options e) (init props) = Some s
    ∧ result 0 s = Some (Rejected e)
    ∧ result 1 s = Some (Rejected e)
    ∧ conversationRef s = None
    ∧ lockRef s = None
    ∧ closePromises s = [].
Proof.
  unfold endsWhileStartFails. run_schedule. done.
Qed.

(** X6: When the component is unmounted during a start call that then
    resolves to [c], [c.endSession()] is called twice: by the unmount hook
    and by [startSession] itself.  When both calls are fulfilled,
    [startSession()] rejects with the cancellation error and the slot and
    the lock are empty; when the one that [startSession] awaits is
    rejected with [e], [startSession()] rejects with [e], the lock is
    cleared and [c] stays in the slot. *)
Theorem unmount_during_connect
    (props : Props) (options : option HookOptions) (c : Conversation)
    (e : error) :
  (∃ s, run props (unmountsDuringConnect options c) (init props) = Some s
    ∧ result 0 s = Some (Rejected (Error cancelledMessage))
    ∧ closeCount c s = 2
    ∧ conversationRef s = None
    ∧ lockRef s = None)
  ∧ (∃ s, run props (unmountsCloseFails options c e) (init props) = Some s
    ∧ result 0 s = Some (Rejected e)
    ∧ closeCount c s = 2
    ∧ conversationRef s = Some c
    ∧ lockRef s = None).
Proof.
  split.
  - unfold unmountsDuringConnect. run_schedule. split_and!; try reflexivity.
    unfold closeCount; cbn [calls]. count_calls.
  - unfold unmountsCloseFails. run_schedule. split_and!; try reflexivity.
    unfold closeCount; cbn [calls]. count_calls.
Qed.

(** X4: [endSession()] with a session installed empties the slot, sets
    the flag and calls the handle's [endSession] once; it fulfils when
    that call resolves and rejects with its reason when it is rejected,
    the slot staying empty; a second [endSession()] meanwhile calls
    nothing; and a [startSession()] meanwhile clears the flag and makes a
    new start call. *)
Theorem endSession_closes_installed
    (props : Props) (options o2 : option HookOptions) (c : Conversation)
    (e : error) :
  (∃ s, run props (endsInstalled options c []) (init props) = Some s
      ∧ conversationRef s = None
      ∧ shouldEndRef s = true
      ∧ closeCount c s = 1
      ∧ suspended 1 EndClose s)
  ∧ (∃ s, run props (endsInstalled options c [ResolveClose 0; Microtask])
            (init props) = Some s
      ∧ result 1 s = Some (Fulfilled VUndefined))
  ∧ (∃ s, run props (endsInstalled options c [RejectClose 0 e; Microtask])
            (init props) = Some s
      ∧ result 1 s = Some (Rejected e)
      ∧ conversationRef s = None)
  ∧ (∃ s, run props
            (endsInstalled options c
               [EndSession; Microtask; ResolveClose 0; Microtask])
            (init props) = Some s
      ∧ result 1 s = Some (Fulfilled VUndefined)
      ∧ result 2 s = Some (Fulfilled VUndefined)
      ∧ closeCount c s = 1)
  ∧ (∃ s, run props (endsInstalled options c [StartSession o2])
            (init props) = Some s
      ∧ suspended 2 BeginConnect s
      ∧ shouldEndRef s = false
      ∧ startCount s = 2).
Proof.
  unfold endsInstalled, installs. simpl app.
  destruct props as [[m|] [v|] sl d].
  all: split_and!; run_schedule; split_and?; try reflexivity.
  all: unfold closeCount, startCount; cbn [calls]; count_calls.
Qed.

(** X1: [endSession()] with no session and no start call pending fulfils
    with [undefined] at its first microtask, calls nothing on the client
    library, and leaves the slot and the lock empty. *)
Theorem endSession_idle (props : Props) (s : state) :
  lockRef s = None →
  conversationRef s = None →
  microtasks s = [] →
  ∃ s', run props [EndSession; Microtask] s = Some s'
    ∧ result (length (tasks s)) s' = Some (Fulfilled VUndefined)
    ∧ calls s' = calls s
    ∧ closePromises s' = closePromises s
    ∧ conversationRef s' = None
    ∧ lockRef s' = None.
Proof.
  intros Hl Hc Hm. simpl. unfold endSession. simpl. rewrite Hl, Hc. simpl.
  unfold microtask. simpl. rewrite Hm. simpl.
  rewrite lookup_app_r, Nat.sub_diag by done. simpl.
  eexists. split; [reflexivity|]. unfold result. simpl.
  rewrite list_lookup_insert_eq by (rewrite length_app; simpl; lia).
  done.
Qed.

Lemma endSession_idle_witness :
  lockRef (init noProps) = None
  ∧ conversationRef (init noProps) = None
  ∧ microtasks (init noProps) = []
  ∧ ∃ s', run noProps [EndSession; Microtask] (init noProps) = Some s'
      ∧ result 0 s' = Some (Fulfilled VUndefined)
      ∧ calls s' = [].
Proof.
  split; [reflexivity|]. split; [reflexivity|]. split; [reflexivity|].
  destruct (endSession_idle noProps (init noProps) eq_refl eq_refl eq_refl)
    as (s' & Hrun & Hres & Hcalls & _).
  exists s'. split; [exact Hrun|]. split; [exact Hres|exact Hcalls].
Defined.


(** X8: In every reachable state the lock is set exactly when a call
    of [startSession] is between taking it and releasing it, and at most
    one call is. *)
Theorem lock_iff_one_acquisition (props : Props) (s : state) :
  reachable props s →
  (is_Some (lockRef s) ↔ ∃ t, acquiring (tasks s) t)
  ∧ (∀ t t', acquiring (tasks s) t → acquiring (tasks s) t' → t = t').
Proof.
  intros Hr. destruct (reachable_guarded _ _ Hr) as [U1 U2].
  split; [split|exact U2].
  - by apply reachable_lockHeld with props.
  - intros [t Ht]. by apply (U1 t).
Qed.

Lemma lock_iff_one_acquisition_witness :
  reachable noProps pendingStart
  ∧ is_Some (lockRef pendingStart)
  ∧ ∃ t, acquiring (tasks pendingStart) t.
Proof.
  assert (Hr : reachable noProps pendingStart).
  { exists [StartSession None]. by vm_compute. }
  destruct (lock_iff_one_acquisition noProps pendingStart Hr) as [[H _] _].
  assert (Hl : is_Some (lockRef pendingStart)) by (exists 0; by vm_compute).
  split; [exact Hr|]. split; [exact Hl|]. exact (H Hl).
Defined.

Lemma onUnmounted_returns s : lockValid s → is_Some (onUnmounted s).
Proof.
  intros Hinv. unfold onUnmounted, awaitStart. simpl.
  destruct (lockRef s) as [p|] eqn:Hl.
  - apply Hinv in Hl. destruct (lookup_lt_is_Some_2 _ _ Hl) as [pr Hpr].
    rewrite Hpr. simpl. destruct (outcome pr); eauto.
  - destruct (conversationRef s); eauto.
Qed.

(** X7: The unmount hook never throws; it sets the flag, closes the
    handle in the slot only when no start call is pending, and writes
    neither the slot nor the lock: the composable goes on holding the
    handle it has just closed. *)
Theorem onUnmounted_leaves_slot (props : Props) (s : state) :
  reachable props s →
  ∃ s', onUnmounted s = Some s'
    ∧ shouldEndRef s' = true
    ∧ conversationRef s' = conversationRef s
    ∧ lockRef s' = lockRef s
    ∧ calls s' = calls s ++
        match lockRef s, conversationRef s with
        | None, Some c => [CEndSession c]
        | _, _ => []
        end.
Proof.
  intros Hr.
  destruct (onUnmounted_returns s (reachable_lockValid props s Hr)) as [s' Hs].
  exists s'. split; [exact Hs|]. revert Hs. unfold_ops. intros Hs. crunch.
  all: by rewrite ?app_nil_r.
Qed.

Lemma onUnmounted_leaves_slot_witness :
  reachable noProps installed
  ∧ ∃ s', onUnmounted installed = Some s'
      ∧ conversationRef s' = Some firstConversation
      ∧ closeCount firstConversation s' = 1.
Proof.
  assert (Hr : reachable noProps installed).
  { exists (installs None firstConversation). by vm_compute. }
  split; [exact Hr|].
  destruct (onUnmounted_leaves_slot noProps installed Hr)
    as (s' & Hs & _ & Hslot & _ & Hcalls).
  exists s'. split; [exact Hs|]. split.
  - rewrite Hslot. by vm_compute.
  - unfold closeCount. rewrite Hcalls. by vm_compute.
Defined.

Lemma open_handle_never_dropped_witness :
  reachable noProps installed
  ∧ ∃ s', step noProps EndSession installed = Some s'
      ∧ conversationRef installed = Some firstConversation
      ∧ conversationRef s' ≠ Some firstConversation
      ∧ (isOpen installed firstConversation = false
         ∨ CEndSession firstConversation ∈ calls s').
Proof.
  assert (Hr : reachable noProps installed).
  { exists (installs None firstConversation). by vm_compute. }
  split; [exact Hr|].
  destruct (step noProps EndSession installed) as [s'|] eqn:Hs;
    [|by vm_compute in Hs].
  exists s'. split; [done|].
  assert (Hc : conversationRef installed = Some firstConversation)
    by (by vm_compute).
  assert (Hn : conversationRef s' ≠ Some firstConversation).
  { vm_compute in Hs. by simplify_eq. }
  split; [exact Hc|]. split; [exact Hn|].
  exact (open_handle_never_dropped noProps EndSession installed s'
           firstConversation Hr Hs Hc Hn).
Defined.

Lemma cancelled_begin_never_resolves_witness :
  reachable noProps pendingStart
  ∧ suspended 0 BeginConnect pendingStart
  ∧ ∃ s2 s, step noProps EndSession pendingStart = Some s2
      ∧ run noProps [ResolveStart 0 firstConversation; Microtask] s2 = Some s
      ∧ overtaken 0 s.
Proof.
  assert (Hr : reachable noProps pendingStart).
  { exists [StartSession None]. by vm_compute. }
  assert (Ht : suspended 0 BeginConnect pendingStart) by (by vm_compute).
  split; [exact Hr|]. split; [exact Ht|].
  destruct (step noProps EndSession pendingStart) as [s2|] eqn:Hs2;
    [|by vm_compute in Hs2].
  destruct (run noProps [ResolveStart 0 firstConversation; Microtask] s2)
    as [s|] eqn:Hrun.
  2:{ exfalso. vm_compute in Hs2. injection Hs2 as <-. by vm_compute in Hrun. }
  exists s2, s. split; [done|]. split; [done|].
  exact (cancelled_begin_never_resolves noProps pendingStart s2 0 _ s
           Hr Ht Hs2 Hrun).
Defined.


Local Transparent getOriginForLocation getLivekitUrlForLocation parseLocation orElse.

(** ** More on locations *)

(** X12: [parseLocation] is idempotent. *)
Theorem parseLocation_idempotent (o : option string) :
  parseLocation (Some (parseLocation o)) = parseLocation o.
Proof. apply parseLocation_valid, parseLocation_in_type. Qed.



(** ** What a start call is given *)

Lemma orElse_nonempty (a : option string) (x : string) :
  x ≠ "" → ∃ u, orElse a (Some x) = Some u ∧ u ≠ "".
Proof.
  intros Hx. destruct a as [y|]; simpl; [|eauto].
  destruct (String.eqb y "") eqn:E; [eauto|].
  apply String.eqb_neq in E. eauto.
Qed.

Lemma livekit_nonempty (l : string) :
  valid l → ∃ x, getLivekitUrlForLocation l = Some x ∧ x ≠ "".
Proof.
  intros [-> | [-> | [-> | ->]]]; eexists; (split; [by vm_compute|done]).
Qed.

Lemma startSession_wellAddressed props options :
  wellAddressed
    (CStartSession
       (getOriginForLocation
          (parseLocation
             (orElse (options ≫= serverLocation) (propsServerLocation props))))
       (orElse (options ≫= livekitUrl)
          (orElse (livekitUrl (defaultOptions props))
             (getLivekitUrlForLocation
                (parseLocation
                   (orElse (options ≫= serverLocation)
                      (propsServerLocation props))))))).
Proof.
  set (l := parseLocation _).
  assert (Hv : valid l) by apply parseLocation_in_type.
  split.
  - exists l. split; [done|]. split; [done|].
    exact (proj1 (maps_cover_type l Hv)).
  - destruct (livekit_nonempty l Hv) as (x & -> & Hx).
    destruct (orElse_nonempty (livekitUrl (defaultOptions props)) x Hx)
      as (u & -> & Hu).
    by apply orElse_nonempty.
Qed.

Local Opaque getOriginForLocation getLivekitUrlForLocation parseLocation orElse.

Lemma step_wellAddressed props a s s' :
  step props a s = Some s' →
  Forall wellAddressed (calls s) → Forall wellAddressed (calls s').
Proof.
  intros Hstep Hinv.
  assert (Hone : ∀ x, wellAddressed x → Forall wellAddressed (calls s ++ [x])).
  { intros x Hx. apply Forall_app. split; [done|]. by apply Forall_singleton. }
  destruct a; simpl in Hstep.
  - unfold startSession, slotIsOpen in Hstep.
    unfold_ops; crunch; first [done | apply Hone; first [exact I | apply startSession_wellAddressed]].
  - unfold_ops; crunch; first [done | apply Hone; first [exact I | apply startSession_wellAddressed]].
  - unfold_ops; crunch; first [done | apply Hone; first [exact I | apply startSession_wellAddressed]].
  - unfold_ops; crunch; first [done | apply Hone; first [exact I | apply startSession_wellAddressed]].
  - unfold_ops; crunch; first [done | apply Hone; first [exact I | apply startSession_wellAddressed]].
  - unfold_ops; crunch; first [done | apply Hone; first [exact I | apply startSession_wellAddressed]].
  - unfold_ops; crunch; first [done | apply Hone; first [exact I | apply startSession_wellAddressed]].
  - by simplify_eq.
  - unfold microtask in Hstep.
    destruct (microtasks s) as [|[t r] rest]; [done|].
    destruct (tasks s !! t) as [[k|]|] eqn:Ht; try done.
    destruct k, r as [[c|e]|[[]|e]]; unfold_ops; crunch.
    all: first [ done | apply Hone; exact I
               | repeat (apply Forall_app; split; [|by apply Forall_singleton]);
                 done ].
Qed.

(** X11: Every start call the composable ever makes is given an origin of
    the table of one of the four locations, and a LiveKit URL that is not
    empty, whatever server location and URLs the props and the options
    carry. *)
Theorem start_calls_wellAddressed (props : Props) (s : state) :
  reachable props s → Forall wellAddressed (calls s).
Proof.
  revert s.
  apply (reachable_invariant props (λ s, Forall wellAddressed (calls s))).
  - constructor.
  - intros a s1 s2 _ Hs H. by eapply step_wellAddressed.
Qed.

Lemma start_calls_wellAddressed_witness :
  reachable noProps pendingStart
  ∧ calls pendingStart
    = [CStartSession (Some "wss://api.elevenlabs.io")
         (Some "wss://livekit.rtc.elevenlabs.io")]
  ∧ Forall wellAddressed (calls pendingStart).
Proof.
  assert (Hr : reachable noProps pendingStart).
  { exists [StartSession None]. by vm_compute. }
  split; [exact Hr|]. split; [by vm_compute|].
  exact (start_calls_wellAddressed noProps pendingStart Hr).
Defined.

(** ** Merging the options of useScribe *)

(** Decides a closed proposition by computation. *)
Ltac decided := apply (bool_decide_unpack _); by vm_compute.

Section ScribeOptions.
Import ScribeConnection.

Lemma truthy_jsOr a b : truthy (jsOr a b) = (truthy a || truthy b)%bool.
Proof. unfold jsOr. by destruct (truthy a) eqn:E; rewrite ?E. Qed.

Lemma Value_inj {A : Type} (a b : A) : Value a = Value b → a = b.
Proof. by intros [=]. Qed.

Lemma get_insert (o : object) k v k' :
  get (<[k := v]> o) k' = if decide (k = k') then v else get o k'.
Proof.
  unfold get. destruct (decide (k = k')) as [->|Hne].
  - by rewrite lookup_insert_eq.
  - by rewrite lookup_insert_ne.
Qed.

Lemma get_foldr_insert (f : string → jsval) (base : object) ks k :
  get (foldr (λ k o, <[k := f k]> o) base ks) k
  = if decide (k ∈ ks) then f k else get base k.
Proof.
  induction ks as [|k0 ks IH]; simpl.
  - destruct (decide (k ∈ [])) as [H|_]; [by apply elem_of_nil in H|done].
  - rewrite get_insert, IH.
    destruct (decide (k0 = k)) as [->|Hne].
    + rewrite decide_True by apply list_elem_of_here. done.
    + destruct (decide (k ∈ ks)) as [Hin|Hnin].
      * rewrite decide_True by (by apply list_elem_of_further). done.
      * rewrite decide_False; [done|].
        intros [?|?]%elem_of_cons; congruence.
Qed.

Lemma get_union (r d : object) k :
  get (r ∪ d) k = match r !! k with Some v => v | None => get d k end.
Proof.
  unfold get. rewrite lookup_union.
  by destruct (r !! k), (d !! k).
Qed.

Lemma merge_outcome (d r : object) :
  (mergeScribeOptions d r = Thrown (Error "Token is required")
   ↔ truthy (get r "token") = false ∧ truthy (get d "token") = false)
  ∧ (mergeScribeOptions d r = Thrown (Error "Model ID is required")
     ↔ (truthy (get r "token") = true ∨ truthy (get d "token") = true)
       ∧ truthy (get r "modelId") = false ∧ truthy (get d "modelId") = false)
  ∧ ((∃ m, mergeScribeOptions d r = Value m)
     ↔ (truthy (get r "token") = true ∨ truthy (get d "token") = true)
       ∧ (truthy (get r "modelId") = true ∨ truthy (get d "modelId") = true)).
Proof.
  unfold mergeScribeOptions. rewrite !truthy_jsOr.
  generalize (foldr (λ k o, <[k := jsOr (get r k) (get d k)]> o)
                (<["modelId" := jsOr (get r "modelId") (get d "modelId")]>
                   (<["token" := jsOr (get r "token") (get d "token")]>
                      (r ∪ d))) callbackNames) as m0.
  intros m0.
  destruct (truthy (get r "token")), (truthy (get d "token")),
    (truthy (get r "modelId")), (truthy (get d "modelId")); simpl.
  all: split_and!; split; try naive_solver.
Qed.

Lemma merge_get (d r m : object) (k : string) :
  mergeScribeOptions d r = Value m →
  get m k =
    if decide (k ∈ preferTruthy) then jsOr (get r k) (get d k)
    else match r !! k with Some v => v | None => get d k end.
Proof.
  unfold mergeScribeOptions. intros H.
  destruct (negb _); [discriminate H|].
  destruct (negb _); [discriminate H|].
  apply Value_inj in H. subst m.
  rewrite (get_foldr_insert (λ k, jsOr (get r k) (get d k))).
  unfold preferTruthy.
  destruct (decide (k ∈ callbackNames)) as [Hin|Hnin].
  - rewrite decide_True; [done|]. by do 2 apply list_elem_of_further.
  - rewrite !get_insert, get_union.
    destruct (decide ("modelId" = k)) as [<-|Hm].
    + rewrite decide_True; [done|]. apply list_elem_of_further, list_elem_of_here.
    + destruct (decide ("token" = k)) as [<-|Ht].
      * rewrite decide_True; [done|]. apply list_elem_of_here.
      * rewrite decide_False; [done|].
        intros [?|[?|?]%elem_of_cons]%elem_of_cons; congruence.
Qed.

Lemma merged_example :
  ∃ m, mergeScribeOptions hookDefaults wipesLanguage = Value m.
Proof.
  apply merge_outcome. split; right; by vm_compute.
Qed.

(** X15: [mergeScribeOptions] throws for a token that is missing or falsy in
    both objects, then for such a model id, each with its own message,
    and returns in every other case. *)
Theorem mergeScribeOptions_requires (d r : object) :
  (mergeScribeOptions d r = Thrown (Error "Token is required")
   ↔ truthy (get r "token") = false ∧ truthy (get d "token") = false)
  ∧ (mergeScribeOptions d r = Thrown (Error "Model ID is required")
     ↔ (truthy (get r "token") = true ∨ truthy (get d "token") = true)
       ∧ truthy (get r "modelId") = false ∧ truthy (get d "modelId") = false)
  ∧ ((∃ m, mergeScribeOptions d r = Value m)
     ↔ (truthy (get r "token") = true ∨ truthy (get d "token") = true)
       ∧ (truthy (get r "modelId") = true ∨ truthy (get d "modelId") = true)).
Proof. exact (merge_outcome d r). Qed.

(** X16: Every property of the merged options: the token, the model id and
    the callbacks are the runtime value if it is truthy and the default
    otherwise; any other property is the runtime one whenever the runtime
    object has the property, even with the value [undefined], and the
    default otherwise. *)
Theorem mergeScribeOptions_reads (d r m : object) (k : string) :
  mergeScribeOptions d r = Value m →
  get m k =
    if decide (k ∈ preferTruthy) then jsOr (get r k) (get d k)
    else match r !! k with Some v => v | None => get d k end.
Proof. exact (merge_get d r m k). Qed.

Lemma mergeScribeOptions_reads_witness :
  ∃ m, mergeScribeOptions hookDefaults wipesLanguage = Value m
    ∧ get m "languageCode" = JUndefined
    ∧ get m "token" = JStr "t"
    ∧ get m "onError" = JFun 1.
Proof.
  destruct merged_example as [m H].
  exists m. split; [done|].
  rewrite !(mergeScribeOptions_reads _ _ _ _ H). by vm_compute.
Defined.

Lemma jsOr_absorb a b : jsOr a (jsOr a b) = jsOr a b.
Proof. unfold jsOr. by destruct (truthy a) eqn:E; rewrite ?E. Qed.

(** X17: Merged options are a fixed point of the merge: merging them again
    with the same runtime options, or with none, gives options that read
    the same at every property. *)
Theorem mergeScribeOptions_fixed_point (d r m : object) :
  mergeScribeOptions d r = Value m →
  (∃ m', mergeScribeOptions m r = Value m' ∧ ∀ k, get m' k = get m k)
  ∧ (∃ m0, mergeScribeOptions m ∅ = Value m0 ∧ ∀ k, get m0 k = get m k).
Proof.
  intros H.
  assert (Htok : get m "token" = jsOr (get r "token") (get d "token")).
  { rewrite (merge_get _ _ _ _ H). by vm_compute. }
  assert (Hmod : get m "modelId" = jsOr (get r "modelId") (get d "modelId")).
  { rewrite (merge_get _ _ _ _ H). by vm_compute. }
  destruct (merge_outcome d r) as (_ & _ & Hok).
  destruct (proj1 Hok (ex_intro _ m H)) as [Ht Hm].
  assert (Ht' : truthy (get m "token") = true).
  { rewrite Htok, truthy_jsOr. by apply orb_true_iff. }
  assert (Hm' : truthy (get m "modelId") = true).
  { rewrite Hmod, truthy_jsOr. by apply orb_true_iff. }
  split.
  - destruct (merge_outcome m r) as (_ & _ & Hok').
    destruct (proj2 Hok') as [m' H']; [by auto|].
    exists m'. split; [done|]. intros k.
    rewrite (merge_get _ _ _ k H'), (merge_get _ _ _ k H).
    destruct (decide (k ∈ preferTruthy)); [apply jsOr_absorb|].
    by destruct (r !! k).
  - destruct (merge_outcome m ∅) as (_ & _ & Hok').
    destruct (proj2 Hok') as [m0 H0]; [by auto|].
    exists m0. split; [done|]. intros k.
    rewrite (merge_get _ _ _ k H0).
    unfold get at 1. rewrite !lookup_empty. simpl.
    by destruct (decide (k ∈ preferTruthy)).
Qed.

Lemma mergeScribeOptions_fixed_point_witness :
  ∃ m m', mergeScribeOptions hookDefaults wipesLanguage = Value m
    ∧ mergeScribeOptions m wipesLanguage = Value m'
    ∧ get m' "token" = get m "token".
Proof.
  destruct merged_example as [m H].
  destruct (mergeScribeOptions_fixed_point _ _ _ H) as [(m' & H' & Hk) _].
  exists m, m'. split; [exact H|]. split; [exact H'|]. apply Hk.
Defined.

(** ** What Scribe.connect is called with *)

Lemma lookup_foldr_insert (f : string → jsval) ks k :
  (foldr (λ k o, <[k := f k]> o) (∅ : object) ks) !! k
  = if decide (k ∈ ks) then Some (f k) else None.
Proof.
  induction ks as [|k0 ks IH]; simpl.
  - rewrite lookup_empty.
    destruct (decide (k ∈ [])) as [H|_]; [by apply elem_of_nil in H|done].
  - destruct (decide (k0 = k)) as [->|Hne].
    + rewrite lookup_insert_eq, decide_True by apply list_elem_of_here. done.
    + rewrite lookup_insert_ne, IH by done.
      destruct (decide (k ∈ ks)) as [Hin|Hnin].
      * rewrite decide_True by (by apply list_elem_of_further). done.
      * rewrite decide_False; [done|].
        intros [?|?]%elem_of_cons; congruence.
Qed.

Lemma baseConfig_lookup (options : object) k :
  baseConfig options !! k
  = if decide (k = "includeTimestamps") then
      Some (shouldIncludeTimestamps options)
    else if decide (k ∈ copied) then Some (get options k) else None.
Proof.
  unfold baseConfig.
  destruct (decide (k = "includeTimestamps")) as [->|Hne].
  - by rewrite lookup_insert_eq.
  - rewrite lookup_insert_ne by done. apply lookup_foldr_insert.
Qed.

Lemma baseConfig_copied (options : object) k :
  k ∈ copied → baseConfig options !! k = Some (get options k).
Proof.
  intros Hk. rewrite baseConfig_lookup, decide_False, decide_True; [done..|].
  intros ->. revert Hk. decided.
Qed.

Lemma create_succeeds (options : object) :
  truthy (get options "microphone") = true
  ∨ (truthy (get options "audioFormat") = true
     ∧ truthy (get options "sampleRate") = true) →
  ∃ config, createScribeConnection options = Value config.
Proof.
  unfold createScribeConnection. intros [-> | [-> ->]]; [by eexists|].
  destruct (truthy (get options "microphone")); by eexists.
Qed.

(** X18: [createScribeConnection] chooses the microphone mode whenever the
    microphone option is truthy, the manual mode when the audio format
    and the sample rate both are (a sample rate of 0 does not count), and
    throws otherwise; the object it makes has the properties of the
    chosen mode only. *)
Theorem createScribeConnection_mode (options : object) :
  match createScribeConnection options with
  | Thrown e =>
      e = Error noDevice
      ∧ truthy (get options "microphone") = false
      ∧ (truthy (get options "audioFormat") = false
         ∨ truthy (get options "sampleRate") = false)
  | Value config =>
      if truthy (get options "microphone") then
        config !! "microphone" = Some (get options "microphone")
        ∧ config !! "audioFormat" = None
        ∧ config !! "sampleRate" = None
      else
        truthy (get options "audioFormat") = true
        ∧ truthy (get options "sampleRate") = true
        ∧ config !! "microphone" = None
        ∧ config !! "audioFormat" = Some (get options "audioFormat")
        ∧ config !! "sampleRate" = Some (get options "sampleRate")
  end.
Proof.
  unfold createScribeConnection.
  destruct (truthy (get options "microphone")) eqn:Hmic.
  - rewrite lookup_insert_eq, !lookup_insert_ne, !baseConfig_lookup by done.
    by vm_compute.
  - destruct (truthy (get options "audioFormat")) eqn:Haf;
      destruct (truthy (get options "sampleRate")) eqn:Hsr; simpl;
      split_and!; by auto.
Qed.

Lemma config_extends_base (options config : object) :
  createScribeConnection options = Value config →
  ∀ k, k ∉ ["microphone"; "audioFormat"; "sampleRate"] →
       config !! k = baseConfig options !! k.
Proof.
  unfold createScribeConnection. intros H k Hk.
  assert (k ≠ "microphone" ∧ k ≠ "audioFormat" ∧ k ≠ "sampleRate")
    as (? & ? & ?).
  { split_and!; intros ->; apply Hk; decided. }
  destruct (truthy (get options "microphone")).
  - apply Value_inj in H. subst config. by rewrite lookup_insert_ne.
  - destruct (_ && _)%bool; [|discriminate H].
    apply Value_inj in H. subst config. by rewrite !lookup_insert_ne.
Qed.

(** X19: The object given to [Scribe.connect] has the nine connection options
    as they are in the options, [includeTimestamps] as given or else as
    "is there a callback for timestamps", never [undefined] or [null],
    and none of the callbacks nor [autoConnect]. *)
Theorem createScribeConnection_config (options config : object) :
  createScribeConnection options = Value config →
  (∀ k, k ∈ copied → config !! k = Some (get options k))
  ∧ config !! "includeTimestamps" = Some (shouldIncludeTimestamps options)
  ∧ (∀ b, get options "includeTimestamps" = JBool b →
          config !! "includeTimestamps" = Some (JBool b))
  ∧ (∃ b, config !! "includeTimestamps" = Some (JBool b)
          ∨ (config !! "includeTimestamps"
             = Some (get options "includeTimestamps")
             ∧ get options "includeTimestamps" ≠ JUndefined
             ∧ get options "includeTimestamps" ≠ JNull))
  ∧ (∀ k, k ∈ "autoConnect" :: callbackNames → config !! k = None).
Proof.
  intros H. pose proof (config_extends_base _ _ H) as E.
  assert (Hts : config !! "includeTimestamps"
                = Some (shouldIncludeTimestamps options)).
  { rewrite E, baseConfig_lookup; [done|]. decided. }
  split_and!.
  - intros k Hk. rewrite E; [by apply baseConfig_copied|].
    intros Hin. revert Hk. clear -Hin.
    repeat (apply elem_of_cons in Hin as [-> | Hin];
            [decided|]).
    by apply elem_of_nil in Hin.
  - exact Hts.
  - intros b Hb. rewrite Hts. unfold shouldIncludeTimestamps. by rewrite Hb.
  - rewrite Hts. unfold shouldIncludeTimestamps.
    destruct (get options "includeTimestamps") eqn:Hi; simpl;
      try (by eexists; left); exists false; right; by rewrite ?Hi.
  - intros k Hk.
    repeat (apply elem_of_cons in Hk as [-> | Hk];
            [rewrite E; [rewrite baseConfig_lookup; by vm_compute|decided]|]).
    by apply elem_of_nil in Hk.
Qed.

Lemma createScribeConnection_config_witness :
  ∃ m config, mergeScribeOptions hookDefaults wipesLanguage = Value m
    ∧ createScribeConnection m = Value config
    ∧ config !! "includeTimestamps" = Some (JBool false)
    ∧ config !! "onError" = None.
Proof.
  destruct merged_example as [m H].
  pose proof (λ k, merge_get _ _ _ k H) as R.
  destruct (create_succeeds m) as [config Hc].
  { right. rewrite !R. split; by vm_compute. }
  exists m, config. split; [exact H|]. split; [exact Hc|].
  destruct (createScribeConnection_config m config Hc)
    as (_ & Hts & _ & _ & Hcb).
  split.
  - rewrite Hts. unfold shouldIncludeTimestamps. rewrite !R. by vm_compute.
  - apply Hcb. decided.
Defined.

End ScribeOptions.

(** ** useScribe: connecting *)

Section Scribe.
Import ScribeConnection UseScribe ScribeComposable.

Lemma merged_wellFormed (options runtimeOptions mergedOptions config : object) :
  mergeScribeOptions options runtimeOptions = Value mergedOptions →
  createScribeConnection mergedOptions = Value config →
  wellFormed config.
Proof.
  intros Hm Hc.
  pose proof (config_extends_base _ _ Hc) as E.
  destruct (proj1 (proj2 (proj2 (merge_outcome options runtimeOptions)))
              (ex_intro _ _ Hm)) as [Ht Hi].
  assert (Hcopied : ∀ k, k ∈ copied → get config k = get mergedOptions k).
  { intros k Hk. unfold get at 1. rewrite E, baseConfig_copied; [done..|].
    intros Hin. revert Hk. clear -Hin.
    repeat (apply elem_of_cons in Hin as [-> | Hin]; [decided|]).
    by apply elem_of_nil in Hin. }
  split_and!.
  - rewrite Hcopied by decided. rewrite (merge_get _ _ _ _ Hm).
    rewrite decide_True by decided. rewrite truthy_jsOr.
    by apply orb_true_iff.
  - rewrite Hcopied by decided. rewrite (merge_get _ _ _ _ Hm).
    rewrite decide_True by decided. rewrite truthy_jsOr.
    by apply orb_true_iff.
  - revert Hc. unfold createScribeConnection.
    destruct (truthy (get mergedOptions "microphone")) eqn:Hmic.
    + intros <-%Value_inj. left. by rewrite get_insert, decide_True.
    + destruct (truthy (get mergedOptions "audioFormat")) eqn:Haf;
        destruct (truthy (get mergedOptions "sampleRate")) eqn:Hsr;
        simpl; try discriminate.
      intros <-%Value_inj. right.
      rewrite !get_insert. simpl. by rewrite Haf, Hsr.
  - exists (shouldIncludeTimestamps mergedOptions). split.
    + rewrite E, baseConfig_lookup; [done|]. decided.
    + unfold shouldIncludeTimestamps.
      by destruct (get mergedOptions "includeTimestamps").
  - intros k Hk.
    repeat (apply elem_of_cons in Hk as [-> | Hk];
            [rewrite E; [rewrite baseConfig_lookup; by vm_compute|decided]|]).
    by apply elem_of_nil in Hk.
Qed.

Local Opaque mergeScribeOptions createScribeConnection.

(** X20: [connect] with a connection in place only warns.  With none, it
    returns exactly when the options merge, a mode is chosen and
    [Scribe.connect] returns; the composable then holds the new
    connection and is still "connecting".  When it throws, no connection
    is held, the status is "error" and the error is the message of what
    was thrown.  The transcripts are untouched either way. *)
Theorem connect_outcome (options runtimeOptions : object)
    (reply : option Js.error) (s : state) :
  match connectionRef s, connect options runtimeOptions reply s with
  | Some _, r => r = Returned () (warn alreadyConnected s)
  | None, Returned _ s' =>
      reply = None
      ∧ (∃ mergedOptions config,
           mergeScribeOptions options runtimeOptions = Value mergedOptions
           ∧ createScribeConnection mergedOptions = Value config
           ∧ connectCalls s' = connectCalls s ++ [config])
      ∧ connectionRef s' = Some (mkConnection (connections s))
      ∧ connections s' = S (connections s)
      ∧ status s' = connecting
      ∧ error s' = None
      ∧ committedTranscripts s' = committedTranscripts s
      ∧ partialTranscript s' = partialTranscript s
  | None, Threw e s' =>
      connectionRef s' = None
      ∧ status s' = failed
      ∧ error s' = Some (errorMessage e)
      ∧ connections s' = connections s
      ∧ (mergeScribeOptions options runtimeOptions = Thrown e
         ∧ connectCalls s' = connectCalls s
         ∨ (∃ mergedOptions,
              mergeScribeOptions options runtimeOptions = Value mergedOptions
              ∧ createScribeConnection mergedOptions = Thrown e)
           ∧ connectCalls s' = connectCalls s
         ∨ reply = Some e ∧ length (connectCalls s') = S (length (connectCalls s)))
      ∧ committedTranscripts s' = committedTranscripts s
      ∧ partialTranscript s' = partialTranscript s
  end.
Proof.
  unfold connect. destruct (connectionRef s) eqn:Hc; [done|].
  destruct (mergeScribeOptions options runtimeOptions) as [m|e] eqn:Hm.
  - destruct (createScribeConnection m) as [config|e] eqn:Hcfg.
    + destruct reply as [e|]; simpl.
      * split_and!; try done. right. right. split; [done|].
        rewrite length_app. simpl. lia.
      * split_and!; try done. by exists m, config.
    + simpl. split_and!; try done. right. left. split; [|done]. by exists m.
  - simpl. split_and!; try done. by left.
Qed.

(** *** What is invariant *)

Lemma connect_connectCalls (options runtimeOptions : object) reply s :
  Forall wellFormed (connectCalls s) →
  Forall wellFormed
    (connectCalls (stateOf (connect options runtimeOptions reply s))).
Proof.
  intros H. unfold connect. destruct (connectionRef s); [done|].
  destruct (mergeScribeOptions options runtimeOptions) as [m|e] eqn:Hm;
    [|done].
  destruct (createScribeConnection m) as [config|e] eqn:Hcfg; [|done].
  assert (Forall wellFormed (connectCalls s ++ [config])).
  { apply Forall_app. split; [done|]. apply Forall_singleton.
    by eapply merged_wellFormed. }
  by destruct reply.
Qed.

Lemma invoke_frame (options : object) name a s :
  connectionRef (invoke options name a s) = connectionRef s
  ∧ status (invoke options name a s) = status s
  ∧ partialTranscript (invoke options name a s) = partialTranscript s
  ∧ committedTranscripts (invoke options name a s) = committedTranscripts s
  ∧ error (invoke options name a s) = error s
  ∧ connectCalls (invoke options name a s) = connectCalls s
  ∧ connections (invoke options name a s) = connections s
  ∧ calls (invoke options name a s) = calls s
  ∧ warnings (invoke options name a s) = warnings s.
Proof. unfold invoke. by destruct (get options name). Qed.

Lemma handle_frame (options : object) ev t s :
  connectCalls (handle options ev t s) = connectCalls s
  ∧ connections (handle options ev t s) = connections s
  ∧ calls (handle options ev t s) = calls s
  ∧ warnings (handle options ev t s) = warnings s.
Proof.
  destruct ev; simpl; unfold invoke;
    repeat match goal with |- context [get options ?k] =>
             destruct (get options k) end; done.
Qed.

Lemma step_connectCalls (options : object) a s s' :
  step options a s = Some s' →
  Forall wellFormed (connectCalls s) → Forall wellFormed (connectCalls s').
Proof.
  destruct a; simpl; intros Hs H; simplify_option_eq.
  - by apply connect_connectCalls.
  - by destruct (connectionRef s).
  - unfold sendAudio. by destruct (connectionRef s).
  - unfold commit. by destruct (connectionRef s).
  - done.
  - by rewrite (proj1 (handle_frame options ev t s)).
  - unfold onUnmounted. by destruct (connectionRef s).
Qed.

Lemma run_invariant (options : object) (P : state → Prop) :
  (∀ a s s', step options a s = Some s' → P s → P s') →
  ∀ trace s s', run options trace s = Some s' → P s → P s'.
Proof.
  intros Hstep trace. induction trace as [|a trace IH]; simpl; intros s s' H Hs.
  - by simplify_eq.
  - destruct (step options a s) as [s1|] eqn:H1; [|done]. simpl in H.
    eapply IH; [done|]. by eapply Hstep.
Qed.

Lemma useScribe_connectCalls (options : object) reply :
  Forall wellFormed (connectCalls (useScribe options reply)).
Proof.
  unfold useScribe. destruct (truthy _); [|by constructor].
  apply connect_connectCalls. by constructor.
Qed.

(** X21: Whatever is done with the composable, every object it has given to
    [Scribe.connect] has a truthy token and model id, one of the two
    audio modes, a value for [includeTimestamps], and no callback. *)
Theorem connect_calls_wellFormed (options : object) (s : state) :
  reachable options s → Forall wellFormed (connectCalls s).
Proof.
  intros (reply & trace & H).
  eapply (run_invariant options (λ s, Forall wellFormed (connectCalls s)));
    [apply step_connectCalls|exact H|apply useScribe_connectCalls].
Qed.


Lemma callbackOf_name (k : specificError) : callbackOf k ∈ callbackNames.
Proof. destruct k; decided. Qed.

Lemma invoke_ofOptions (options : object) name a s :
  name ∈ callbackNames →
  Forall (ofOptions options) (invoked s) →
  Forall (ofOptions options) (invoked (invoke options name a s)).
Proof.
  intros Hn H. unfold invoke.
  destruct (get options name) eqn:Hg; try done; simpl.
  all: apply Forall_app; split; [done|]; apply Forall_singleton.
  all: exists name; simpl; by rewrite Hg.
Qed.

Lemma connect_invoked (options runtimeOptions : object) reply s :
  invoked (stateOf (connect options runtimeOptions reply s)) = invoked s
  ∧ calls (stateOf (connect options runtimeOptions reply s)) = calls s
  ∧ committedTranscripts (stateOf (connect options runtimeOptions reply s))
    = committedTranscripts s.
Proof.
  unfold connect. destruct (connectionRef s); [done|].
  destruct (mergeScribeOptions options runtimeOptions) as [m|e]; [|done].
  destruct (createScribeConnection m) as [config|e]; [|done].
  by destruct reply.
Qed.

Lemma step_ofOptions (options : object) a s s' :
  step options a s = Some s' →
  Forall (ofOptions options) (invoked s) →
  Forall (ofOptions options) (invoked s').
Proof.
  destruct a; simpl; intros Hs H; simplify_option_eq.
  - by rewrite (proj1 (connect_invoked _ _ _ _)).
  - by destruct (connectionRef s).
  - unfold sendAudio. by destruct (connectionRef s).
  - unfold commit. by destruct (connectionRef s).
  - done.
  - destruct ev; simpl; repeat apply invoke_ofOptions; try done;
      try decided. apply callbackOf_name.
  - unfold onUnmounted. by destruct (connectionRef s).
Qed.

(** X22: Every callback that the composable calls is a property of the
    options given to [useScribe]; a callback given to [connect] is
    called only if it is one of those as well. *)
Theorem callbacks_are_those_of_useScribe (options : object) (s : state) :
  reachable options s →
  Forall (ofOptions options) (invoked s)
  ∧ ∀ f, (∀ name, get options name ≠ JFun f) →
         Forall (λ i, callee i ≠ JFun f) (invoked s).
Proof.
  intros (reply & trace & H).
  assert (Hall : Forall (ofOptions options) (invoked s)).
  { eapply (run_invariant options
              (λ s, Forall (ofOptions options) (invoked s)));
      [apply step_ofOptions|exact H|].
    unfold useScribe. destruct (truthy _); [|by constructor].
    rewrite (proj1 (connect_invoked _ _ _ _)). by constructor. }
  split; [done|]. intros f Hf.
  eapply Forall_impl; [exact Hall|].
  intros i (name & _ & Hi & _) Heq. apply (Hf name). congruence.
Qed.

(** ** useScribe: the transcripts *)

Lemma step_committedTranscripts (options : object) a s s' :
  step options a s = Some s' →
  isClear a = false →
  committedTranscripts s' = committedTranscripts s ++ segmentOf a.
Proof.
  destruct a; simpl; intros Hs Hc; simplify_option_eq;
    rewrite ?app_nil_r.
  - apply connect_invoked.
  - by destruct (connectionRef s).
  - unfold sendAudio. by destruct (connectionRef s).
  - unfold commit. by destruct (connectionRef s).
  - destruct ev; simpl; rewrite ?app_nil_r;
      repeat rewrite (proj1 (proj2 (proj2 (proj2 (invoke_frame _ _ _ _)))));
      done.
  - unfold onUnmounted. by destruct (connectionRef s).
Qed.

(** X23: Only [clearTranscripts] removes a committed transcript: over any
    use of the composable without it, whether it connects, disconnects,
    fails or is unmounted, the list grows by one final segment for each
    committed-transcript event, in the order of the events. *)
Theorem transcripts_accumulate (options : object) (trace : list action)
    (s s' : state) :
  run options trace s = Some s' →
  Forall (λ a, isClear a = false) trace →
  committedTranscripts s'
  = committedTranscripts s ++ flat_map segmentOf trace
  ∧ Forall (λ x, isFinal x = true) (flat_map segmentOf trace).
Proof.
  revert s. induction trace as [|a trace IH]; simpl; intros s H Hc.
  - simplify_eq. by rewrite app_nil_r.
  - destruct (step options a s) as [s1|] eqn:H1; [|done]. simpl in H.
    apply Forall_cons in Hc as [Ha Hc].
    destruct (IH _ H Hc) as [-> Hfin].
    rewrite (step_committedTranscripts _ _ _ _ H1 Ha), <-app_assoc.
    split; [done|]. apply Forall_app. split; [|done].
    destruct a; simpl; try by constructor.
    destruct ev; simpl; repeat constructor.
Qed.

(** ** useScribe: errors *)

(** X24: The error message is removed by nothing but a [connect] that finds
    no connection in place. *)
Theorem error_cleared_only_by_connect (options : object) (a : action)
    (s s' : state) :
  step options a s = Some s' →
  is_Some (error s) →
  error s' = None →
  connectionRef s = None
  ∧ ∃ runtimeOptions,
      a = Connect runtimeOptions None
      ∧ connect options runtimeOptions None s = Returned () s'.
Proof.
  destruct a; simpl; intros Hs [m Hm] He; simplify_option_eq.
  - unfold connect in *. destruct (connectionRef s) eqn:Hc.
    + simpl in He. congruence.
    + split; [done|]. exists runtimeOptions.
      destruct (mergeScribeOptions options runtimeOptions) as [m0|e];
        [|simpl in He; congruence].
      destruct (createScribeConnection m0) as [config|e];
        [|simpl in He; congruence].
      destruct reply as [e|]; [simpl in He; congruence|done].
  - destruct (connectionRef s); simpl in He; congruence.
  - unfold sendAudio in He. destruct (connectionRef s); simpl in He; congruence.
  - unfold commit in He. destruct (connectionRef s); simpl in He; congruence.
  - destruct ev; simpl in He;
      repeat rewrite (proj1 (proj2 (proj2 (proj2 (proj2 (invoke_frame _ _ _ _))))))
        in He; simpl in He; congruence.
  - unfold onUnmounted in He. destruct (connectionRef s); simpl in He; congruence.
Qed.

(** The invocations that [callbacks.name?.(a)] adds. *)
Lemma invoke_invoked (options : object) name a s :
  invoked (invoke options name a s)
  = invoked s ++ match get options name with
                 | JUndefined | JNull => []
                 | f => [{| callee := f; passed := a |}]
                 end.
Proof.
  unfold invoke. destruct (get options name); simpl; by rewrite ?app_nil_r.
Qed.

(** X25: An error event of the connection sets the status and the message and
    calls the callback of its kind, then [onError]; it neither closes nor
    drops the connection, so that audio can still be sent while the
    status is "error". *)
Theorem specific_error_keeps_connection (options : object)
    (k : specificError) (message audioBase64 : string)
    (o : option AudioOptions) (t : readings) (s : state) :
  let s' := handle options (SPECIFIC k message) t s in
  status s' = failed
  ∧ error s' = Some message
  ∧ isConnected s' = false
  ∧ connectionRef s' = connectionRef s
  ∧ calls s' = calls s
  ∧ invoked s'
    = invoked s
      ++ match get options (callbackOf k) with
         | JUndefined | JNull => []
         | f => [{| callee := f; passed := ErrorMessage message |}]
         end
      ++ match get options "onError" with
         | JUndefined | JNull => []
         | f => [{| callee := f; passed := NewError message |}]
         end
  ∧ ∀ c, connectionRef s = Some c →
         sendAudio audioBase64 o s'
         = Returned () (log (CSend c audioBase64 o) s').
Proof.
  simpl.
  pose proof (invoke_frame options "onError" (NewError message)
    (invoke options (callbackOf k) (ErrorMessage message)
       (set_status failed (set_error (Some message) s))))
    as (F1 & F2 & _ & _ & F5 & _ & _ & F8 & _).
  pose proof (invoke_frame options (callbackOf k) (ErrorMessage message)
       (set_status failed (set_error (Some message) s)))
    as (G1 & G2 & _ & _ & G5 & _ & _ & G8 & _).
  split_and!.
  - by rewrite F2, G2.
  - by rewrite F5, G5.
  - unfold isConnected. by rewrite F2, G2.
  - by rewrite F1, G1.
  - by rewrite F8, G8.
  - by rewrite !invoke_invoked, <-app_assoc.
  - intros c Hc. unfold sendAudio. rewrite F1, G1. simpl. by rewrite Hc.
Qed.

(** ** useScribe: closing *)

Lemma closed_log (x : call) (s : state) :
  closed (log x s)
  = closed s ++ match x with CClose c => [c] | _ => [] end.
Proof. unfold closed. simpl. rewrite omap_app. by destruct x. Qed.

Lemma handle_connectionRef (options : object) ev t s :
  connectionRef (handle options ev t s) = connectionRef s
  ∨ connectionRef (handle options ev t s) = None.
Proof.
  destruct ev; simpl;
    repeat rewrite (proj1 (invoke_frame _ _ _ _)); simpl; auto.
Qed.

Lemma tidy_frame (s s' : state) :
  closed s' = closed s →
  (connections s ≤ connections s')%nat →
  (connectionRef s' = connectionRef s ∨ connectionRef s' = None
   ∨ (connectionRef s = None ∧ (connections s < connections s')%nat
      ∧ connectionRef s' = Some (mkConnection (connections s)))) →
  tidy s → tidy s'.
Proof.
  unfold tidy, created. intros -> Hle Href (Hnd & Hcl & Hheld).
  split; [done|]. split.
  - intros c Hc. destruct (Hcl c Hc) as [Hlt Hne]. split; [lia|].
    destruct Href as [-> | [-> | (_ & _ & ->)]]; [done..|].
    intros [= <-]. simpl in Hlt. lia.
  - intros c Hc. destruct Href as [Heq | [Heq | (_ & Hlt & Heq)]].
    + rewrite Heq in Hc. specialize (Hheld c Hc). lia.
    + congruence.
    + rewrite Heq in Hc. simplify_eq. simpl. lia.
Qed.

Lemma connect_tidy (options runtimeOptions : object) reply s :
  tidy s → tidy (stateOf (connect options runtimeOptions reply s)).
Proof.
  unfold connect. destruct (connectionRef s) eqn:Hc.
  { apply tidy_frame; simpl; auto. }
  destruct (mergeScribeOptions options runtimeOptions) as [m|e];
    [|apply tidy_frame; simpl; auto].
  destruct (createScribeConnection m) as [config|e];
    [|apply tidy_frame; simpl; auto].
  destruct reply as [e|]; apply tidy_frame; simpl; auto.
  right. right. split_and!; [done|lia|done].
Qed.

Lemma disconnect_tidy (s : state) : tidy s → tidy (stateOf (disconnect s)).
Proof.
  unfold disconnect. destruct (connectionRef s) as [c|] eqn:Hc; simpl.
  - intros (Hnd & Hcl & Hheld). unfold tidy.
    change (closed _) with (closed (log (CClose c) s)).
    rewrite closed_log. simpl. split_and!; [|intros c' Hin|done].
    + apply NoDup_app. split; [done|]. split; [|apply NoDup_singleton].
      intros c' Hin ->%list_elem_of_singleton.
      by destruct (Hcl c Hin).
    + split; [|done]. apply elem_of_app in Hin as [Hin | ->%list_elem_of_singleton].
      * by apply Hcl.
      * by apply Hheld.
  - apply tidy_frame; simpl; auto.
Qed.

Lemma step_tidy (options : object) a s s' :
  isUnmount a = false → step options a s = Some s' → tidy s → tidy s'.
Proof.
  destruct a; simpl; intros Hu Hs; simplify_option_eq.
  - apply connect_tidy.
  - apply disconnect_tidy.
  - unfold sendAudio. destruct (connectionRef s) eqn:Hc; [|done]. simpl.
    apply tidy_frame; simpl; auto. rewrite closed_log. apply app_nil_r.
  - unfold commit. destruct (connectionRef s) eqn:Hc; [|done]. simpl.
    apply tidy_frame; simpl; auto. rewrite closed_log. apply app_nil_r.
  - apply tidy_frame; simpl; auto.
  - destruct (handle_frame options ev t s) as (_ & Hn & Hcalls & _).
    apply tidy_frame.
    + unfold closed. by rewrite Hcalls.
    + by rewrite Hn.
    + destruct (handle_connectionRef options ev t s); auto.
Qed.

Lemma useScribe_tidy (options : object) reply : tidy (useScribe options reply).
Proof.
  assert (tidy init).
  { split; [apply NoDup_nil_2|]. split; [by intros c ?%elem_of_nil|done]. }
  unfold useScribe. destruct (truthy _); [|done]. by apply connect_tidy.
Qed.

(** X26: While the component is mounted, no connection is closed twice, and a
    connection that was closed is no longer held. *)
Theorem no_connection_closed_twice (options : object) (s : state) :
  mounted options s →
  NoDup (closed s) ∧ ∀ c, c ∈ closed s → connectionRef s ≠ Some c.
Proof.
  intros (reply & trace & Hm & H).
  assert (Ht : tidy s).
  { revert H. generalize (useScribe_tidy options reply).
    generalize (useScribe options reply).
    induction trace as [|a trace IH]; simpl; intros s0 H0 H.
    - by simplify_eq.
    - apply Forall_cons in Hm as [Ha Hm].
      destruct (step options a s0) as [s1|] eqn:H1; [|done]. simpl in H.
      eapply IH; [done| |done]. by eapply step_tidy. }
  destruct Ht as (Hnd & Hcl & _). split; [done|].
  intros c Hc. by destruct (Hcl c Hc).
Qed.

(** X27: Unmounting closes the connection and goes on holding it: the status
    stays, audio is still sent to the closed connection, and a
    [disconnect] closes it a second time. *)
Theorem unmount_keeps_connection (options : object) (s : state)
    (c : RealtimeConnection) (audioBase64 : string)
    (o : option AudioOptions) :
  connectionRef s = Some c →
  ∃ s1, step options Unmount s = Some s1
    ∧ calls s1 = calls s ++ [CClose c]
    ∧ connectionRef s1 = Some c
    ∧ status s1 = status s
    ∧ sendAudio audioBase64 o s1 = Returned () (log (CSend c audioBase64 o) s1)
    ∧ calls (stateOf (disconnect s1)) = calls s ++ [CClose c; CClose c].
Proof.
  intros Hc. eexists. split; [done|]. unfold onUnmounted. rewrite Hc.
  unfold sendAudio, disconnect. simpl. rewrite Hc. simpl.
  rewrite <-app_assoc. done.
Qed.

(** ** useScribe: events of a connection that is no longer the current one *)

(** X28: After [disconnect] and a new [connect], the close event of the first
    connection makes the composable drop the second one, which is not
    closed: the status is "disconnected", audio is refused, and
    [Scribe.connect] has a connection still open. *)
Theorem reconnect_then_late_close (options runtimeOptions : object)
    (mergedOptions config : object) (s : state) (c0 : RealtimeConnection)
    (t : readings) (audioBase64 : string) (o : option AudioOptions) :
  connectionRef s = Some c0 →
  created s c0 →
  mergeScribeOptions options runtimeOptions = Value mergedOptions →
  createScribeConnection mergedOptions = Value config →
  ∃ s1 s',
    run options [Disconnect; Connect runtimeOptions None] s = Some s1
    ∧ connectionRef s1 = Some (mkConnection (connections s))
    ∧ step options (Emit c0 CLOSE t) s1 = Some s'
    ∧ connectionRef s' = None
    ∧ status s' = disconnected
    ∧ connections s' = S (connections s)
    ∧ calls s' = calls s ++ [CClose c0]
    ∧ sendAudio audioBase64 o s' = Threw (Error notConnected) s'.
Proof.
  intros Hc Hcr Hm Hcfg. simpl. unfold disconnect. rewrite Hc. simpl.
  unfold connect. simpl. rewrite Hm, Hcfg. simpl.
  eexists _, _. split; [done|]. split; [done|].
  rewrite decide_True by (unfold created in *; simpl; lia).
  split; [done|]. unfold sendAudio, invoke.
  by destruct (get options "onDisconnect").
Qed.

(** X29: A partial transcript that arrives after [disconnect] makes the
    composable report that it is connected and transcribing while it
    holds no connection and refuses audio. *)
Theorem late_partial_after_disconnect (options : object) (s : state)
    (c : RealtimeConnection) (text : string) (t : readings)
    (audioBase64 : string) (o : option AudioOptions) :
  created s c →
  ∃ s', run options [Disconnect; Emit c (PARTIAL_TRANSCRIPT text) t] s
        = Some s'
    ∧ isConnected s' = true
    ∧ isTranscribing s' = true
    ∧ partialTranscript s' = text
    ∧ connectionRef s' = None
    ∧ sendAudio audioBase64 o s' = Threw (Error notConnected) s'
    ∧ commit s' = Threw (Error notConnected) s'.
Proof.
  intros Hcr. simpl.
  rewrite decide_True
    by (unfold created, disconnect in *; by destruct (connectionRef s)).
  eexists. split; [done|].
  unfold isConnected, isTranscribing, sendAudio, commit, invoke.
  by destruct (get options "onPartialTranscript").
Qed.

(** ** useScribe: autoConnect *)

Lemma get_empty k : get ∅ k = JUndefined.
Proof. reflexivity. Qed.

(** X30: With [autoConnect] and no token in the options, [useScribe] itself
    does not throw and calls nothing: the composable starts with the
    status "error" and the message of the missing token, whatever
    [Scribe.connect] would have done. *)
Theorem autoConnect_without_token (options : object)
    (reply : option Js.error) :
  truthy (autoConnect options) = true →
  truthy (get options "token") = false →
  status (useScribe options reply) = failed
  ∧ error (useScribe options reply) = Some "Token is required"
  ∧ connectionRef (useScribe options reply) = None
  ∧ connectCalls (useScribe options reply) = []
  ∧ calls (useScribe options reply) = [].
Proof.
  unfold useScribe. intros -> Ht.
  assert (Hm : mergeScribeOptions options ∅
               = Thrown (Error "Token is required")).
  { apply merge_outcome. by rewrite get_empty. }
  unfold connect. simpl. by rewrite Hm.
Qed.

(** ** Instances *)

Lemma session_runs :
  ∃ s, run withCallbacks session (useScribe withCallbacks None) = Some s
       ∧ length (connectCalls s) = 1
       ∧ length (invoked s) = 2
       ∧ closed s = [mkConnection 0].
Proof.
  destruct (run withCallbacks session (useScribe withCallbacks None))
    as [s|] eqn:H; [|by vm_compute in H].
  exists s. split; [done|].
  assert (Hl : length (connectCalls s) = 1).
  { apply (f_equal (fmap (length ∘ connectCalls))) in H.
    vm_compute in H. by injection H. }
  assert (Hi : length (invoked s) = 2).
  { apply (f_equal (fmap (length ∘ invoked))) in H.
    vm_compute in H. by injection H. }
  assert (Hc : closed s = [mkConnection 0]).
  { apply (f_equal (fmap closed)) in H. vm_compute in H. by injection H. }
  exact (conj Hl (conj Hi Hc)).
Qed.

Lemma connect_calls_wellFormed_witness :
  ∃ s, reachable withCallbacks s
       ∧ length (connectCalls s) = 1
       ∧ Forall wellFormed (connectCalls s).
Proof.
  destruct session_runs as (s & H & Hl & _).
  exists s. split; [by exists None, session|]. split; [exact Hl|].
  apply (connect_calls_wellFormed withCallbacks). by exists None, session.
Defined.

Lemma callbacks_are_those_of_useScribe_witness :
  ∃ s, reachable withCallbacks s
       ∧ length (invoked s) = 2
       ∧ Forall (λ i, callee i ≠ JFun 7) (invoked s).
Proof.
  destruct session_runs as (s & H & _ & Hi & _).
  exists s. split; [by exists None, session|]. split; [exact Hi|].
  apply (callbacks_are_those_of_useScribe withCallbacks s);
    [by exists None, session|].
  intros name. unfold withCallbacks, hookDefaults.
  rewrite !get_insert. rewrite get_empty.
  repeat (destruct (decide _); [done|]). done.
Defined.

Lemma transcripts_accumulate_witness :
  ∃ s, run withCallbacks session (useScribe withCallbacks None) = Some s
       ∧ committedTranscripts s
         = [{| id := "0-0"; text := "hello"; timestamp := 0; isFinal := true;
               words := None |}].
Proof.
  destruct session_runs as (s & H & _).
  exists s. split; [exact H|].
  refine (proj1 (transcripts_accumulate withCallbacks session _ s H _)).
  repeat constructor.
Defined.

Lemma error_cleared_only_by_connect_witness :
  connectionRef hasFailed = None
  ∧ ∃ runtimeOptions,
      Connect ∅ None = Connect runtimeOptions None
      ∧ connect hookDefaults runtimeOptions None hasFailed
        = Returned () (stateOf (connect hookDefaults ∅ None hasFailed)).
Proof.
  apply (error_cleared_only_by_connect hookDefaults (Connect ∅ None)
           hasFailed (stateOf (connect hookDefaults ∅ None hasFailed))).
  - reflexivity.
  - by eexists.
  - by vm_compute.
Defined.

Lemma no_connection_closed_twice_witness :
  ∃ s, mounted withCallbacks s
       ∧ closed s = [mkConnection 0]
       ∧ NoDup (closed s)
       ∧ ∀ c, c ∈ closed s → connectionRef s ≠ Some c.
Proof.
  destruct session_runs as (s & H & _ & _ & Hc).
  assert (Hm : mounted withCallbacks s).
  { exists None, session. split; [repeat constructor|exact H]. }
  exists s. split; [exact Hm|]. split; [exact Hc|].
  exact (no_connection_closed_twice withCallbacks s Hm).
Defined.

Lemma unmount_keeps_connection_witness :
  ∃ s1, step hookDefaults Unmount holding = Some s1
    ∧ calls s1 = calls holding ++ [CClose (mkConnection 0)]
    ∧ connectionRef s1 = Some (mkConnection 0)
    ∧ status s1 = status holding
    ∧ sendAudio "" None s1
      = Returned () (log (CSend (mkConnection 0) "" None) s1)
    ∧ calls (stateOf (disconnect s1))
      = calls holding ++ [CClose (mkConnection 0); CClose (mkConnection 0)].
Proof.
  apply (unmount_keeps_connection hookDefaults holding (mkConnection 0)).
  reflexivity.
Defined.

Lemma reconnect_then_late_close_witness :
  ∃ s1 s',
    run hookDefaults [Disconnect; Connect ∅ None] holding = Some s1
    ∧ connectionRef s1 = Some (mkConnection (connections holding))
    ∧ step hookDefaults (Emit (mkConnection 0) CLOSE noReadings) s1 = Some s'
    ∧ connectionRef s' = None
    ∧ status s' = disconnected
    ∧ connections s' = S (connections holding)
    ∧ calls s' = calls holding ++ [CClose (mkConnection 0)]
    ∧ sendAudio "" None s' = Threw (Error notConnected) s'.
Proof.
  destruct (proj2 (proj2 (proj2 (merge_outcome hookDefaults ∅))))
    as [m Hm]; [split; right; by vm_compute|].
  destruct (create_succeeds m) as [config Hc].
  { right. rewrite !(merge_get _ _ _ _ Hm). split; by vm_compute. }
  apply (reconnect_then_late_close hookDefaults ∅ m config holding
           (mkConnection 0)); [reflexivity| |exact Hm|exact Hc].
  unfold created. simpl. lia.
Defined.

Lemma late_partial_after_disconnect_witness :
  ∃ s', run hookDefaults
          [Disconnect; Emit (mkConnection 0) (PARTIAL_TRANSCRIPT "he")
                         noReadings] holding
        = Some s'
    ∧ isConnected s' = true
    ∧ isTranscribing s' = true
    ∧ partialTranscript s' = "he"
    ∧ connectionRef s' = None
    ∧ sendAudio "" None s' = Threw (Error notConnected) s'
    ∧ commit s' = Threw (Error notConnected) s'.
Proof.
  apply (late_partial_after_disconnect hookDefaults holding (mkConnection 0)).
  unfold created. simpl. lia.
Defined.

Lemma autoConnect_without_token_witness :
  status (useScribe autoConnects None) = failed
  ∧ error (useScribe autoConnects None) = Some "Token is required"
  ∧ connectionRef (useScribe autoConnects None) = None
  ∧ connectCalls (useScribe autoConnects None) = []
  ∧ calls (useScribe autoConnects None) = [].
Proof.
  apply (autoConnect_without_token autoConnects None); by vm_compute.
Defined.

End Scribe.
